(** * remove-silent-scene: the interval planner, the diagnostic parser and
      the file orchestration of [index.js], embedded in Rocq.

    Conventions of the embedding.
    - A JavaScript string is the list of its UTF-16 code units ([jsstring]).
    - A JavaScript Number that stands for a time stamp or a volume is the
      rational value ([Q]) of a finite double.  The operators of the
      program on Numbers ([Number_sub], [Number_add], [Number_div]) round
      their exact result to the nearest double, ties to even ([round64]),
      as IEEE 754 binary64 does; the plain [+], [-] and [<=] of [Q] are
      exact and only used to speak about the values.  Not-a-number and the
      infinities (overflow) are outside the model.
    - A thrown [Error] is a value of [exn]; a function that may throw
      returns a [result].
    - Code that talks to the outside (sub-processes, the file system, the
      console) runs in the monad [IO], which threads the list of effects
      performed so far; the outside answers through the fields of a [Host]. *)

From Stdlib Require Import Ascii String.
From Stdlib Require Import List Sorted Bool Arith Lia ZArith NArith QArith Lqa.
From Stdlib Require Import Qround Qpower Qreduction.
From Equations Require Import Equations.
Import ListNotations.

Local Open Scope Q_scope.

(** ** Numbers: the doubles and their arithmetic *)

Abbreviation Number := Q (only parsing).

(** The integer nearest to [t], the even one of two equally near. *)
Definition rne (t : Q) : Z :=
  let f := Qfloor t in
  match Qcompare (t - inject_Z f) (1 # 2) with
  | Lt => f
  | Gt => (f + 1)%Z
  | Eq => if Z.even f then f else (f + 1)%Z
  end.

(** The binary logarithm of a positive number, rounded down. *)
Definition ilog2 (q : Q) : Z :=
  if Qle_bool 1 q then Z.log2 (Qfloor q)
  else (- Z.log2_up (Qceiling (/ q)))%Z.

(** The exponent of the last place of the double nearest to a positive
    number: 53 significant bits, and no exponent below that of the
    subnormal numbers. *)
Definition exponent (q : Q) : Z := Z.max (ilog2 q - 52) (-1074).

Definition round_pos (q : Q) : Q :=
  inject_Z (rne (q / 2 ^ exponent q)) * 2 ^ exponent q.

Definition round_signed (q : Q) : Q :=
  match Qcompare q 0 with
  | Eq => 0
  | Gt => round_pos q
  | Lt => - round_pos (- q)
  end.

(** The double nearest to [x], as a fraction in lowest terms. *)
Definition round64 (x : Q) : Number := Qred (round_signed (Qred x)).

(** The values of the doubles. *)
Definition is_double (x : Q) : Prop := round64 x == x.

(** The JavaScript operators [x - y], [x + y] and [x / y]. *)
Definition Number_sub (x y : Number) : Number := round64 (x - y).
Definition Number_add (x y : Number) : Number := round64 (x + y).
Definition Number_div (x y : Number) : Number := round64 (x / y).

(** ** The tuning constants (index.js, lines 10-12): the literals [1],
    [0.4] and [0.2] *)

Definition minimumNotSilentDuration : Number := 1.
Definition remainingSilentDuration : Number := round64 (4 # 10).
Definition minimumSilentDuration : Number := round64 (2 # 10).

(** The JavaScript comparison [x > y]. *)
Definition Number_gt (x y : Number) : bool := negb (Qle_bool x y).

(** A period is the two-element array [[startPosition, endPosition]]. *)
Definition period : Type := (Number * Number)%type.

(** A period whose two positions are doubles. *)
Definition doubles (p : period) : Prop :=
  is_double (fst p) /\ is_double (snd p).

(** ** The planner: removeSilentFromVideoFile, lines 81-91

    The loop keeps two variables, the array [notSilentPeriodList] (grown
    with [push]) and [lastEndPosition]. *)

Definition plan_step (st : list period * Number) (p : period)
  : list period * Number :=
  let '(notSilentPeriodList, lastEndPosition) := st in
  let '(startPosition, endPosition) := p in
  (if Number_gt (Number_sub startPosition lastEndPosition)
        minimumNotSilentDuration
   then notSilentPeriodList ++ [(lastEndPosition, startPosition)]
   else notSilentPeriodList,
   endPosition).

Definition planNotSilentPeriodList
  (silentPeriodList : list period) (videoDuration : Number) : list period :=
  let '(notSilentPeriodList, lastEndPosition) :=
    fold_left plan_step silentPeriodList ([], 0) in
  if Number_gt (Number_sub videoDuration lastEndPosition)
       minimumNotSilentDuration
  then notSilentPeriodList ++ [(lastEndPosition, videoDuration)]
  else notSilentPeriodList.

(** ** The padding pass: adjustNotSilentPeriodList, lines 191-203

    [adjust_from len i l] runs the body of the [for] loop for the elements
    [l] found at the indices [i], [i+1], ... of an array of length [len].
    The loop body only runs when [len > 0], where [len - 1] on [nat] is the
    JavaScript [periodList.length - 1]. *)

Fixpoint adjust_from (len i : nat) (l : list period) : list period :=
  match l with
  | [] => []
  | (startPosition, endPosition) :: rest =>
      let extendedStartPosition :=
        if Nat.eqb i 0 then startPosition
        else Number_sub startPosition
               (Number_div remainingSilentDuration 2) in
      let extendedEndPosition :=
        if Nat.eqb i (len - 1) then endPosition
        else Number_add endPosition
               (Number_div remainingSilentDuration 2) in
      (extendedStartPosition, extendedEndPosition)
        :: adjust_from len (S i) rest
  end.

Definition adjustNotSilentPeriodList (periodList : list period) : list period :=
  adjust_from (length periodList) 0 periodList.

(** ** Strings and errors *)

(** A string is the list of its UTF-16 code units. *)
Definition jsstring : Type := list N.

(** Literals of the source are written as Rocq strings. *)
Definition js (s : String.string) : jsstring :=
  map N_of_ascii (String.list_ascii_of_string s).
Arguments js s%_string.

Fixpoint jsstring_eqb (a b : jsstring) : bool :=
  match a, b with
  | [], [] => true
  | x :: a', y :: b' => N.eqb x y && jsstring_eqb a' b'
  | _, _ => false
  end.

Record exn : Type := Error { message : jsstring }.

Inductive result (A : Type) : Type :=
| Ok (value : A)
| Throw (error : exn).
Arguments Ok {A} value.
Arguments Throw {A} error.

(** ** The regular expressions

    Both regular expressions of the program are sequences of literals,
    greedy classes, optional items and one alternative.  Every greedy class
    is followed by an item whose first character lies outside the class,
    the two branches of the alternative start with different characters,
    and an optional item that was taken cannot be given back with success
    (the item after it cannot start where the optional one does).  So the
    backtracking matcher of JavaScript never finds a match by giving
    characters back, and it matches at a position exactly when the greedy
    functions [span] and [strip_prefix] below do, with the same captures. *)

Local Open Scope N_scope.

(** [\d] *)
Definition is_digit (c : N) : bool := (48 <=? c) && (c <=? 57).

(** LineTerminator: what [^] and [$] look at under the [m] flag. *)
Definition is_line_terminator (c : N) : bool :=
  (c =? 10) || (c =? 13) || (c =? 8232) || (c =? 8233).

(** [\s]: WhiteSpace and LineTerminator of ECMAScript. *)
Definition is_space (c : N) : bool :=
  (c =? 9) || (c =? 11) || (c =? 12) || (c =? 32) || (c =? 160)
  || (c =? 5760) || ((8192 <=? c) && (c <=? 8202))
  || (c =? 8239) || (c =? 8287) || (c =? 12288) || (c =? 65279)
  || is_line_terminator c.

(** [[^\]]] *)
Definition not_bracket (c : N) : bool := negb (c =? 93).

Local Close Scope N_scope.

(** A greedy [class*]: the longest prefix in the class, and the rest. *)
Fixpoint span (p : N -> bool) (l : jsstring) : jsstring * jsstring :=
  match l with
  | [] => ([], [])
  | c :: t =>
      if p c then let '(taken, rest) := span p t in (c :: taken, rest)
      else ([], l)
  end.

(** A literal: the rest of the input after it. *)
Fixpoint strip_prefix (lit l : jsstring) : option jsstring :=
  match lit, l with
  | [], _ => Some l
  | x :: lit', y :: l' => if N.eqb x y then strip_prefix lit' l' else None
  | _ :: _, [] => None
  end.

(** [\d+(?:\.\d+)?]: the matched text and the rest. *)
Definition exec_numeral (l : jsstring) : option (jsstring * jsstring) :=
  let '(int_part, r1) := span is_digit l in
  match int_part with
  | [] => None
  | _ :: _ =>
      match r1 with
      | c :: r2 =>
          if N.eqb c 46 then
            let '(frac_part, r3) := span is_digit r2 in
            match frac_part with
            | [] => Some (int_part, r1)
            | _ :: _ => Some (int_part ++ c :: frac_part, r3)
            end
          else Some (int_part, r1)
      | [] => Some (int_part, r1)
      end
  end.

(** [(start|end)] *)
Definition exec_start_or_end (l : jsstring) : option (jsstring * jsstring) :=
  match strip_prefix (js "start") l with
  | Some r => Some (js "start", r)
  | None =>
      match strip_prefix (js "end") l with
      | Some r => Some (js "end", r)
      | None => None
      end
  end.

Definition bind_option {A B : Type} (o : option A) (k : A -> option B)
  : option B :=
  match o with Some a => k a | None => None end.

Notation "x <-? o ;; k" := (bind_option o (fun x => k))
  (at level 61, o at next level, right associativity).
Notation "' p <-? o ;; k" := (bind_option o (fun x => let 'p := x in k))
  (at level 61, p pattern, o at next level, right associativity).

(** The body of the regular expression of line 163 after its [^]:
    [\[silencedetect[^\]]*\]\s*silence_(start|end)\s*:\s*(\d+(?:\.\d+)?)].
    The result holds the captures 1 and 2 and the input left after the
    match. *)
Definition silencedetect_exec (l : jsstring)
  : option (jsstring * jsstring * jsstring) :=
  r1 <-? strip_prefix (js "[silencedetect") l ;;
  r2 <-? strip_prefix (js "]") (snd (span not_bracket r1)) ;;
  r3 <-? strip_prefix (js "silence_") (snd (span is_space r2)) ;;
  '(type, r4) <-? exec_start_or_end r3 ;;
  r5 <-? strip_prefix (js ":") (snd (span is_space r4)) ;;
  '(positionStr, r6) <-? exec_numeral (snd (span is_space r5)) ;;
  Some (type, positionStr, r6).

(** [^] under the [m] flag, from the character before the position. *)
Definition at_line_start (prev : option N) : bool :=
  match prev with
  | None => true
  | Some c => is_line_terminator c
  end.

(** [output.matchAll(/^.../mg)]: the matches from left to right.  [prev] is
    the character before the current position and [skip] the number of
    characters of the last match still to step over: the search resumes
    where the last match ended ([lastIndex]). *)
Fixpoint matchAll_from (prev : option N) (skip : nat) (l : jsstring)
  : list (jsstring * jsstring) :=
  match l with
  | [] => []
  | c :: t =>
      match skip with
      | S k => matchAll_from (Some c) k t
      | O =>
          if at_line_start prev then
            match silencedetect_exec l with
            | Some (type, positionStr, rest) =>
                (type, positionStr)
                  :: matchAll_from (Some c) (length t - length rest) t
            | None => matchAll_from (Some c) 0 t
            end
          else matchAll_from (Some c) 0 t
      end
  end.

Definition silencedetect_matchAll (output : jsstring)
  : list (jsstring * jsstring) :=
  matchAll_from None 0 output.

(** ** getSilentPeriodListFromSilenceDetectOutput, lines 162-189 *)

Section Parser.

(** The built-in [parseFloat], on the strings it reads as a finite
    number. *)
Variable parseFloat : jsstring -> Number.

(** The [for ... of] loop of lines 170-187; [startPosition] is [null]
    ([None]) or a number, [periodList] grows with [push]. *)
Fixpoint period_loop (output : jsstring) (startPosition : option Number)
  (periodList : list period) (matched : list (jsstring * jsstring))
  : result (list period) :=
  match matched with
  | [] => Ok periodList
  | (type, positionStr) :: matched' =>
      let position := parseFloat positionStr in
      match startPosition with
      | None =>
          if negb (jsstring_eqb type (js "start")) then
            Throw (Error (js "Unexpected period end: " ++ output))
          else period_loop output (Some position) periodList matched'
      | Some start =>
          if negb (jsstring_eqb type (js "end")) then
            Throw (Error (js "Unexpected period start: " ++ output))
          else
            period_loop output None (periodList ++ [(start, position)])
              matched'
      end
  end.

(** The guard [if (!matched)] of line 164 never fires: [matchAll] returns
    an iterator object, which is truthy. *)
Definition getSilentPeriodListFromSilenceDetectOutput (output : jsstring)
  : result (list period) :=
  period_loop output None [] (silencedetect_matchAll output).

End Parser.

(** ** getMinValumeFromVolumeDetectOutput, lines 154-160 *)

(** [$] under the [m] flag, from the input left at the position. *)
Definition at_line_end (l : jsstring) : bool :=
  match l with
  | [] => true
  | c :: _ => is_line_terminator c
  end.

(** The body of the regular expression of line 155 after its [^]:
    [\[Parsed_volumedetect_\d[^\]]*\]\s*mean_volume\s*:\s*(-?\d+(?:\.\d+)?)\s*dB$].
    The result is capture 1. *)
Definition volumedetect_exec (l : jsstring) : option jsstring :=
  r1 <-? strip_prefix (js "[Parsed_volumedetect_") l ;;
  r2 <-? match r1 with
         | c :: r => if is_digit c then Some r else None
         | [] => None
         end ;;
  r3 <-? strip_prefix (js "]") (snd (span not_bracket r2)) ;;
  r4 <-? strip_prefix (js "mean_volume") (snd (span is_space r3)) ;;
  r5 <-? strip_prefix (js ":") (snd (span is_space r4)) ;;
  let r6 := snd (span is_space r5) in
  let '(sign, r7) :=
    match strip_prefix (js "-") r6 with
    | Some r => (js "-", r)
    | None => ([], r6)
    end in
  '(digits, r8) <-? exec_numeral r7 ;;
  r9 <-? strip_prefix (js "dB") (snd (span is_space r8)) ;;
  if at_line_end r9 then Some (sign ++ digits) else None.

(** [output.match(/^.../m)]: capture 1 of the leftmost match. *)
Fixpoint volumedetect_match (prev : option N) (l : jsstring)
  : option jsstring :=
  match (if at_line_start prev then volumedetect_exec l else None) with
  | Some capture => Some capture
  | None =>
      match l with
      | [] => None
      | c :: t => volumedetect_match (Some c) t
      end
  end.

Definition getMinValumeFromVolumeDetectOutput
  (parseFloat : jsstring -> Number) (output : jsstring) : result Number :=
  match volumedetect_match None output with
  | None => Throw (Error (js "Volume Detect Output Error: " ++ output))
  | Some capture => Ok (parseFloat capture)
  end.

(** ** The concatenation listing, lines 106-109 *)

(** [filePath.replace(/'/, "'\\''")]: the regular expression has no [g]
    flag, so the first match alone is replaced; the replacement text holds
    no [$] pattern. *)
Fixpoint replace_quote (filePath : jsstring) : jsstring :=
  match filePath with
  | [] => []
  | c :: t =>
      if N.eqb c 39 then js "'\''" ++ t
      else c :: replace_quote t
  end.

(** [Array.prototype.join] *)
Fixpoint join (sep : jsstring) (l : list jsstring) : jsstring :=
  match l with
  | [] => []
  | [x] => x
  | x :: rest => x ++ sep ++ join sep rest
  end.

Definition concat_line (filePath : jsstring) : jsstring :=
  js "file '" ++ replace_quote filePath ++ js "'".

Definition concatFileContent (chunkedVideoFilePathList : list jsstring)
  : jsstring :=
  join [10%N] (map concat_line chunkedVideoFilePathList).

(** ** The outside: effects, the host and the monad [IO] *)

(** An argument of a sub-process: a string or a number ([execFile] turns
    the numbers into text). *)
Inductive arg : Type :=
| AStr (s : jsstring)
| ANum (n : Number).

(** What [console.error] prints after its message. *)
Inductive logged : Type :=
| LUndefined
| LStr (s : jsstring)
| LErr (e : exn).

Inductive effect : Type :=
| Ffprobe (args : list arg)
| Ffmpeg (args : list arg)
| Readdir (dirPath : jsstring)
| Mkdirp (dirPath : jsstring)
| OutputFile (filePath content : jsstring)
| Remove (targetPath : jsstring)
| ConsoleError (text : jsstring) (value : logged).

Definition trace : Type := list effect.

(** The built-ins and the world the program runs in.  An answer of the
    world may depend on everything done before ([trace]). *)
Record Host : Type := {
  parseFloat : jsstring -> Number;
  Number_toString : Number -> jsstring;
  path_basename : jsstring -> jsstring;
  path_basename_ext : jsstring -> jsstring -> jsstring;
  path_dirname : jsstring -> jsstring;
  path_extname : jsstring -> jsstring;
  path_join : jsstring -> jsstring -> jsstring;
  (** the [TypeError] of the [path] functions on [undefined] *)
  path_invalid_arg : exn;
  (** the standard output of the probing tool, or its failure *)
  ffprobe_answer : trace -> list arg -> result jsstring;
  (** the error stream of the analysis and encoding tool, or its failure *)
  ffmpeg_answer : trace -> list arg -> result jsstring;
  readdir_answer : trace -> jsstring -> result (list jsstring);
  mkdirp_answer : trace -> jsstring -> result unit;
  outputFile_answer : trace -> jsstring -> jsstring -> result unit;
  remove_answer : trace -> jsstring -> result unit
}.

Definition IO (A : Type) : Type := trace -> trace * result A.

Definition ret {A : Type} (a : A) : IO A := fun t => (t, Ok a).

Definition throw {A : Type} (e : exn) : IO A := fun t => (t, Throw e).

Definition bind {A B : Type} (m : IO A) (k : A -> IO B) : IO B :=
  fun t =>
    match m t with
    | (t', Ok a) => k a t'
    | (t', Throw e) => (t', Throw e)
    end.

(** [try { m } catch (err) { handler err }] *)
Definition try_catch {A : Type} (m : IO A) (handler : exn -> IO A) : IO A :=
  fun t =>
    match m t with
    | (t', Ok a) => (t', Ok a)
    | (t', Throw e) => handler e t'
    end.

(** One effect: it is recorded, and the world answers from what came
    before it. *)
Definition perform {A : Type} (e : effect) (answer : trace -> result A)
  : IO A :=
  fun t => (t ++ [e], answer t).

(** A pure computation that may throw. *)
Definition lift {A : Type} (r : result A) : IO A := fun t => (t, r).

Notation "x <- m ;; k" := (bind m (fun x => k))
  (at level 61, m at next level, right associativity).
Notation "m ;;; k" := (bind m (fun _ => k))
  (at level 61, right associativity).

(** [haystack.match(/needle/)] for a pattern without special characters:
    is there an occurrence? *)
Fixpoint includes (needle haystack : jsstring) : bool :=
  match strip_prefix needle haystack with
  | Some _ => true
  | None =>
      match haystack with
      | [] => false
      | _ :: t => includes needle t
      end
  end.

Section Orchestrator.

Variable host : Host.

(** *** execFfmpeg and execFfprobe, lines 128-152 *)

Definition execFfmpeg (args : list arg) : IO jsstring :=
  perform (Ffmpeg args) (fun t => ffmpeg_answer host t args).

Definition execFfprobe (args : list arg) : IO jsstring :=
  perform (Ffprobe args) (fun t => ffprobe_answer host t args).

(** *** isVideoFile, lines 118-126 *)

Definition isVideoFile (path : jsstring) : IO bool :=
  try_catch
    (execFfprobe [AStr (js "-i"); AStr path] ;;; ret true)
    (fun _ => ret false).

(** The [path] functions throw on [undefined]. *)
Definition path_argument (value : option jsstring) : IO jsstring :=
  match value with
  | Some p => ret p
  | None => throw (path_invalid_arg host)
  end.

(** *** removeSilentFromVideoFile, lines 59-116 *)

(** The extraction loop of lines 99-103; the result is
    [chunkedVideoFilePathList]. *)
Fixpoint extract_loop (videoPath chunkedVideoDirname outputVideoExtname
    : jsstring) (chunkedVideoFilePathList : list jsstring)
    (notSilentPeriodList : list period) : IO (list jsstring) :=
  match notSilentPeriodList with
  | [] => ret chunkedVideoFilePathList
  | (startPosition, endPosition) :: rest =>
      let chunkedVideoFilePath :=
        path_join host chunkedVideoDirname
          (Number_toString host startPosition ++ js "-"
             ++ Number_toString host endPosition ++ outputVideoExtname) in
      execFfmpeg [AStr (js "-y"); AStr (js "-ss"); ANum startPosition;
                  AStr (js "-t");
                  ANum (Number_sub endPosition startPosition);
                  AStr (js "-i"); AStr videoPath;
                  AStr chunkedVideoFilePath] ;;;
      extract_loop videoPath chunkedVideoDirname outputVideoExtname
        (chunkedVideoFilePathList ++ [chunkedVideoFilePath]) rest
  end.

(** The three analysis invocations of lines 69, 72 and 78. *)
Definition duration_args (videoPath : jsstring) : list arg :=
  [AStr (js "-v"); AStr (js "error"); AStr (js "-show_entries");
   AStr (js "format=duration"); AStr (js "-of");
   AStr (js "default=noprint_wrappers=1:nokey=1"); AStr videoPath].

Definition volumedetect_args (videoPath : jsstring) : list arg :=
  [AStr (js "-i"); AStr videoPath; AStr (js "-af");
   AStr (js "volumedetect"); AStr (js "-f"); AStr (js "null");
   AStr (js "-")].

Definition silencedetect_args (videoPath : jsstring)
  (thresholdVolume thresholdDuration : Number) : list arg :=
  [AStr (js "-i"); AStr videoPath; AStr (js "-af");
   AStr (js "silencedetect=n=" ++ Number_toString host thresholdVolume
           ++ js "dB:d=" ++ Number_toString host thresholdDuration);
   AStr (js "-f"); AStr (js "null"); AStr (js "-")].

Definition removeSilentFromVideoFile
  (videoPath outputVideoPath : option jsstring) : IO unit :=
  videoPath <- path_argument videoPath ;;
  let videoExtname := path_extname host videoPath in
  let videoBasename := path_basename_ext host videoPath videoExtname in
  let videoDirname := path_dirname host videoPath in
  let outputVideoPath :=
    match outputVideoPath with
    | Some (c :: p) => c :: p
    | _ => (* [!outputVideoPath]: [undefined] or the empty string *)
        path_join host videoDirname
          (videoBasename ++ js ".silenceremoved" ++ videoExtname)
    end in
  let outputVideoExtname := path_extname host outputVideoPath in
  let chunkedVideoDirname := outputVideoPath ++ js ".tmp" in
  videoDurationStr <- execFfprobe (duration_args videoPath) ;;
  let videoDuration := parseFloat host videoDurationStr in
  volumeDetectOutput <- execFfmpeg (volumedetect_args videoPath) ;;
  meanVolume <-
    lift (getMinValumeFromVolumeDetectOutput (parseFloat host)
            volumeDetectOutput) ;;
  let thresholdVolume := Number_sub meanVolume 0 in
  let thresholdDuration :=
    Number_add minimumSilentDuration remainingSilentDuration in
  silenceDetectOutput <-
    execFfmpeg
      (silencedetect_args videoPath thresholdVolume thresholdDuration) ;;
  silentPeriodList <-
    lift (getSilentPeriodListFromSilenceDetectOutput (parseFloat host)
            silenceDetectOutput) ;;
  let notSilentPeriodList :=
    adjustNotSilentPeriodList
      (planNotSilentPeriodList silentPeriodList videoDuration) in
  if Nat.ltb 0 (length notSilentPeriodList) then
    perform (Mkdirp chunkedVideoDirname)
      (fun t => mkdirp_answer host t chunkedVideoDirname) ;;;
    chunkedVideoFilePathList <-
      extract_loop videoPath chunkedVideoDirname outputVideoExtname []
        notSilentPeriodList ;;
    let concatFilePath :=
      path_join host chunkedVideoDirname (js "filelist.txt") in
    let content := concatFileContent chunkedVideoFilePathList in
    perform (OutputFile concatFilePath content)
      (fun t => outputFile_answer host t concatFilePath content) ;;;
    execFfmpeg [AStr (js "-y"); AStr (js "-f"); AStr (js "concat");
                AStr (js "-safe"); AStr (js "0"); AStr (js "-i");
                AStr concatFilePath; AStr (js "-c"); AStr (js "copy");
                AStr outputVideoPath] ;;;
    perform (Remove chunkedVideoDirname)
      (fun t => remove_answer host t chunkedVideoDirname)
  else ret tt.

(** *** removeSilentFromVideoDirectory, lines 27-57 *)

Fixpoint directory_loop (videoDirPath outputDirPath : jsstring)
    (videoFilenameList : list jsstring) : IO unit :=
  match videoFilenameList with
  | [] => ret tt
  | filename :: rest =>
      let videoFilePath := path_join host videoDirPath filename in
      let outputFilePath := path_join host outputDirPath filename in
      done <- isVideoFile outputFilePath ;;
      (if done : bool then ret tt
       else
         isVideo <- isVideoFile videoFilePath ;;
         if isVideo : bool then
           try_catch
             (removeSilentFromVideoFile (Some videoFilePath)
                (Some outputFilePath))
             (fun err =>
                if includes
                     (js "Too many packets buffered for output stream")
                     (message err)
                then
                  perform
                    (ConsoleError
                       (js "Ignore error that cannot be resolved: ")
                       (LErr err))
                    (fun _ => Ok tt)
                else throw err)
         else ret tt) ;;;
      directory_loop videoDirPath outputDirPath rest
  end.

Definition removeSilentFromVideoDirectory
  (videoDirPath outputDirPath : option jsstring) : IO unit :=
  videoDirPath <- path_argument videoDirPath ;;
  let videoDirBasename := path_basename host videoDirPath in
  let videoDirDirname := path_dirname host videoDirPath in
  let outputDirPath :=
    match outputDirPath with
    | Some (c :: p) => c :: p
    | _ => (* [!outputDirPath]: [undefined] or the empty string *)
        path_join host videoDirDirname
          (videoDirBasename ++ js ".silenceremoved")
    end in
  videoFilenameList <-
    perform (Readdir videoDirPath)
      (fun t => readdir_answer host t videoDirPath) ;;
  perform (Mkdirp outputDirPath)
    (fun t => mkdirp_answer host t outputDirPath) ;;;
  directory_loop videoDirPath outputDirPath videoFilenameList.

(** *** main, lines 14-25

    [main] receives the array [arguments]: [mode] is its first element
    ([undefined] when there is none) and [args] the rest.  The fallback
    calls [main] again, on ['file'] followed by all of [arguments]. *)

Definition mode_is (name : jsstring) (arguments : list jsstring) : bool :=
  match arguments with
  | mode :: _ => jsstring_eqb mode name
  | [] => false
  end.

Definition logged_mode (arguments : list jsstring) : logged :=
  match arguments with
  | mode :: _ => LStr mode
  | [] => LUndefined
  end.

(** A tested value together with the equation that records the test. *)
Definition inspect {A : Type} (a : A) : {b : A | a = b} :=
  exist _ a eq_refl.

Notation "x 'eqn:' p" := (exist _ x p) (only parsing, at level 20).

Definition main_fallbacks (arguments : list jsstring) : nat :=
  if mode_is (js "file") arguments || mode_is (js "dir") arguments
  then 0 else 1.

Equations? main (arguments : list jsstring) : IO unit
  by wf (main_fallbacks arguments) lt :=
  main arguments with inspect (mode_is (js "file") arguments) := {
    | true eqn: _ =>
        removeSilentFromVideoFile
          (nth_error (tl arguments) 0) (nth_error (tl arguments) 1);
    | false eqn: not_file
        with inspect (mode_is (js "dir") arguments) := {
        | true eqn: _ =>
            removeSilentFromVideoDirectory
              (nth_error (tl arguments) 0) (nth_error (tl arguments) 1);
        | false eqn: not_dir =>
            perform
              (ConsoleError (js "Unknown mode, fallback file mode: ")
                 (logged_mode arguments))
              (fun _ => Ok tt) ;;;
            main (js "file" :: arguments) } }.
Proof.
  unfold main_fallbacks. rewrite not_file, not_dir. cbn. lia.
Qed.

End Orchestrator.

(** ** The specification's side

    The definitions below follow the words of the specification; the
    theorems compare them with the program above. *)

(** *** Spans of time

    A span [(a, b)] is read half-open, as the points [a <= t < b]: adjacent
    spans then tile the time line without sharing a point. *)

Definition in_span (t : Number) (p : period) : Prop :=
  fst p <= t /\ t < snd p.

Definition in_spans (t : Number) (l : list period) : Prop :=
  Exists (in_span t) l.

Definition span_length (p : period) : Number := snd p - fst p.

(** Silence intervals in time order, one not starting before the previous
    one ended; the first one does not start before [lo]. *)
Fixpoint silences_from (lo : Number) (silences : list period) : Prop :=
  match silences with
  | [] => True
  | (s, e) :: rest => lo <= s /\ s <= e /\ silences_from e rest
  end.

Definition silences_sorted (silences : list period) : Prop :=
  match silences with
  | [] => True
  | (s, e) :: rest => s <= e /\ silences_from e rest
  end.

(** The same, and all of them inside [[lo, D]]. *)
Fixpoint silences_within (lo : Number) (silences : list period) (D : Number)
  : Prop :=
  match silences with
  | [] => lo <= D
  | (s, e) :: rest => lo <= s /\ s <= e /\ silences_within e rest D
  end.

(** Intervals in time order that never overlap: each is a proper interval
    and ends before any later one starts. *)
Definition sorted_non_overlapping (l : list period) : Prop :=
  Forall (fun p => fst p < snd p) l
  /\ StronglySorted (fun p q => snd p <= fst q) l.

(** The gaps the silences leave in [[cursor, D]]: before the first
    silence, between consecutive silences, after the last one. *)
Fixpoint gap_spans (cursor : Number) (silences : list period) (D : Number)
  : list period :=
  match silences with
  | [] => [(cursor, D)]
  | (s, e) :: rest => (cursor, s) :: gap_spans e rest D
  end.

(** The length of a gap as the program computes it, in double precision. *)
Definition double_length (p : period) : Number :=
  Number_sub (snd p) (fst p).

(** Three ways for a gap to be short: its length is below
    [minKeepDuration], its length is at most [minKeepDuration], its length
    computed in double precision is at most [minKeepDuration]. *)
Definition shorter_than_minimum (g : period) : Prop :=
  span_length g < minimumNotSilentDuration.

Definition at_most_minimum (g : period) : Prop :=
  span_length g <= minimumNotSilentDuration.

Definition at_most_minimum_in_double (g : period) : Prop :=
  double_length g <= minimumNotSilentDuration.

(** The test [x > y] of the specification, on the values. *)
Definition exceeds (x y : Number) : bool :=
  match Qcompare x y with
  | Gt => true
  | _ => false
  end.

(** The gaps longer than [minKeepDuration] in double precision. *)
Definition long_in_double (g : period) : bool :=
  exceeds (double_length g) minimumNotSilentDuration.

(** The least exact length a gap may have for its double-precision length
    to be above [minKeepDuration] in every case: the next double after
    [1]. *)
Definition next_after_minimum : Number :=
  minimumNotSilentDuration + 2 ^ (-52).

Definition below_next_after_minimum (g : period) : Prop :=
  span_length g < next_after_minimum.

(** The point [t] lies in a gap of [[0, D]] that is short. *)
Definition in_short_gap (short : period -> Prop) (silences : list period)
  (D t : Number) : Prop :=
  Exists (fun g => short g /\ in_span t g) (gap_spans 0 silences D).

(** The point [t] lies in a keep span or in a silence span. *)
Definition in_union (silences : list period) (D t : Number) : Prop :=
  in_spans t (planNotSilentPeriodList silences D) \/ in_spans t silences.

(** "The union of the keep spans plus the union of the silence spans equals
    [[0, D]] minus the short gaps", at the point [t]. *)
Definition covers_all_but_short_gaps (short : period -> Prop)
  (silences : list period) (D t : Number) : Prop :=
  in_union silences D t
  <-> ((0 <= t /\ t < D) /\ ~ in_short_gap short silences D t).

(** *** The cursor algorithm of section 4.2, steps 1 to 3

    The algorithm, for a given way of computing the difference
    [s - cursor]: [Qminus] is the exact difference, [Number_sub] the
    difference in double precision. *)
Fixpoint cursor_plan (difference : Number -> Number -> Number)
  (cursor : Number) (silences : list period) (D : Number) : list period :=
  match silences with
  | [] =>
      if exceeds (difference D cursor) minimumNotSilentDuration
      then [(cursor, D)] else []
  | (s, e) :: rest =>
      (if exceeds (difference s cursor) minimumNotSilentDuration
       then [(cursor, s)] else [])
        ++ cursor_plan difference e rest D
  end.

(** *** Padding, step 4: the shift by [paddingDuration/2], computed as the
    program's numbers are *)

Definition padded (n i : nat) (p : period) : period :=
  ((if Nat.eqb i 0 then fst p
    else Number_sub (fst p) (Number_div remainingSilentDuration 2)),
   (if Nat.eqb i (n - 1) then snd p
    else Number_add (snd p) (Number_div remainingSilentDuration 2))).

(** *** Inputs of the examples: the doubles written [0.1] and [1.1] *)

Definition double_0_1 : Number := round64 (1 # 10).
Definition double_1_1 : Number := round64 (11 # 10).

(** *** Markers and their alternation

    A marker is a match of the marker pattern: its kind (["start"] or
    ["end"]) and the text of its number. *)

Definition marker : Type := (jsstring * jsstring)%type.

Definition is_start (m : marker) : bool := jsstring_eqb (fst m) (js "start").
Definition is_end (m : marker) : bool := jsstring_eqb (fst m) (js "end").

(** The number of [silence_start] markers still unmatched after reading
    [ms], [n] of them being unmatched before. *)
Fixpoint unmatched_starts (n : nat) (ms : list marker) : nat :=
  match ms with
  | [] => n
  | m :: rest =>
      unmatched_starts (if is_start m then S n else Nat.pred n) rest
  end.

(** Strict alternation is violated somewhere in [ms]: a [silence_end]
    stands where no earlier [silence_start] is unmatched, or a
    [silence_start] where an earlier one still is. *)
Definition violates_alternation (ms : list marker) : Prop :=
  exists before m after,
    ms = before ++ m :: after
    /\ ((is_end m = true /\ unmatched_starts 0 before = 0%nat)
        \/ (is_start m = true /\ (0 < unmatched_starts 0 before)%nat)).

(** The markers of a list of balanced pairs, in order. *)
Definition markers_of (pairs : list (jsstring * jsstring)) : list marker :=
  flat_map (fun p => [(js "start", fst p); (js "end", snd p)]) pairs.

(** The periods a list of balanced pairs of number texts stands for. *)
Definition periods_of (parseFloat : jsstring -> Number)
  (pairs : list (jsstring * jsstring)) : list period :=
  map (fun p => (parseFloat (fst p), parseFloat (snd p))) pairs.

(** The two parse errors of the silence parser. *)
Definition is_parse_error (output : jsstring) (r : result (list period))
  : Prop :=
  r = Throw (Error (js "Unexpected period end: " ++ output))
  \/ r = Throw (Error (js "Unexpected period start: " ++ output)).

(** *** Synthetic diagnostic text *)

Inductive digit : Type :=
| D0 | D1 | D2 | D3 | D4 | D5 | D6 | D7 | D8 | D9.

Definition digit_code (d : digit) : N :=
  match d with
  | D0 => 48 | D1 => 49 | D2 => 50 | D3 => 51 | D4 => 52
  | D5 => 53 | D6 => 54 | D7 => 55 | D8 => 56 | D9 => 57
  end%N.

(** A time stamp as the tool prints it: digits, and maybe a point and
    further digits. *)
Record numeral : Type := {
  int_first : digit;
  int_more : list digit;
  fraction : option (digit * list digit)
}.

Definition numeral_text (x : numeral) : jsstring :=
  map digit_code (int_first x :: int_more x)
    ++ match fraction x with
       | None => []
       | Some (d, ds) => 46%N :: map digit_code (d :: ds)
       end.

(** One marker line, as the silence detection prints it. *)
Definition marker_line (kind : String.string) (x : numeral) : jsstring :=
  js "[silencedetect @ 0x55d0c8a1b2c0] silence_" ++ js kind ++ js ": "
    ++ numeral_text x ++ [10%N].

Fixpoint render_silences (intervals : list (numeral * numeral)) : jsstring :=
  match intervals with
  | [] => []
  | (s, e) :: rest =>
      marker_line "start" s ++ marker_line "end" e ++ render_silences rest
  end.

(** *** The listing file *)

(** Every single quote replaced by the sequence [quote backslash quote
    quote]. *)
Fixpoint escape_quotes (filePath : jsstring) : jsstring :=
  match filePath with
  | [] => []
  | c :: t =>
      if N.eqb c 39 then js "'\''" ++ escape_quotes t
      else c :: escape_quotes t
  end.

Definition listing_of (paths : list jsstring) : jsstring :=
  join [10%N] (map (fun p => js "file '" ++ escape_quotes p ++ js "'") paths).

(** ** A host to run the program on

    A small world for the examples: numbers are read from decimal text and
    rounded to the nearest double, the
    probing tool reports half a second, and the analysis tool reports a mean
    volume and no silence. *)

Fixpoint digits_value (acc : N) (l : jsstring) : N :=
  match l with
  | [] => acc
  | c :: t => digits_value (10 * acc + (c - 48))%N t
  end.

Definition decimal_parseFloat (text : jsstring) : Number :=
  let '(negative, body) :=
    match text with
    | 45%N :: body => (true, body)
    | _ => (false, text)
    end in
  let '(int_part, r) := span is_digit body in
  let frac_part :=
    match r with
    | 46%N :: r' => fst (span is_digit r')
    | _ => []
    end in
  let magnitude :=
    Qmake (Z.of_N (digits_value 0 (int_part ++ frac_part)))
          (fold_left (fun d _ => (10 * d)%positive) frac_part 1%positive) in
  round64 (if negative : bool then Qopp magnitude else magnitude).

(** Three diagnostic texts: an end marker alone, a balanced pair followed
    by a start, and a progress line without any marker. *)
Definition end_first_text : jsstring :=
  js "[silencedetect @ 0x55d0c8a1b2c0] silence_end: 3.5".

Definition trailing_start_text : jsstring :=
  marker_line "start" {| int_first := D2; int_more := []; fraction := None |}
    ++ marker_line "end" {| int_first := D3; int_more := [];
                            fraction := Some (D5, []) |}
    ++ js "[silencedetect @ 0x55d0c8a1b2c0] silence_start: 9.25".

Definition no_marker_text : jsstring :=
  js "size=N/A time=00:00:05.00 bitrate=N/A speed= 512x".

Definition quiet_ffmpeg (t : trace) (args : list arg) : result jsstring :=
  Ok (js "[Parsed_volumedetect_0 @ 0x55d0c8a1b2c0] mean_volume: -23.5 dB").

Definition sample_host : Host := {|
  parseFloat := decimal_parseFloat;
  Number_toString := fun _ => js "0";
  path_basename := fun p => p;
  path_basename_ext := fun p _ => p;
  path_dirname := fun _ => js ".";
  path_extname := fun _ => js ".mp4";
  path_join := fun a b => a ++ js "/" ++ b;
  path_invalid_arg := Error (js "The path argument must be of type string");
  ffprobe_answer := fun _ _ => Ok (js "0.5");
  ffmpeg_answer := quiet_ffmpeg;
  readdir_answer := fun _ _ => Ok [];
  mkdirp_answer := fun _ _ => Ok tt;
  outputFile_answer := fun _ _ _ => Ok tt;
  remove_answer := fun _ _ => Ok tt
|}.

(** ** Further definitions for the properties of the second part *)

(** Half of the padding, the amount by which a boundary moves. *)
Definition half_padding : Number := Number_div remainingSilentDuration 2.

(** The last character of a text, if any. *)
Definition last_char (t : jsstring) : option N :=
  match rev t with
  | [] => None
  | c :: _ => Some c
  end.

(** A text without any opening bracket. *)
Definition no_bracket (t : jsstring) : bool :=
  forallb (fun c => negb (N.eqb c 91)) t.

(** Other output that may stand before a marker line: no opening bracket,
    and empty or ended by a line terminator. *)
Definition quiet_text (t : jsstring) : bool :=
  no_bracket t
  && match last_char t with
     | None => true
     | Some c => is_line_terminator c
     end.

(** What may follow the number of a marker line up to the next marker
    line: the rest of the line and further lines without an opening
    bracket.  It does not go on with the number and ends a line. *)
Definition filler (t : jsstring) : bool :=
  no_bracket t
  && match t with
     | [] => false
     | c :: _ => negb (is_digit c) && negb (N.eqb c 46)
     end
  && match last_char t with
     | None => false
     | Some c => is_line_terminator c
     end.

(** A marker line followed by a filler. *)
Definition marker_text (kind : String.string) (x : numeral)
  (rest_of_line : jsstring) : jsstring :=
  js "[silencedetect @ 0x55d0c8a1b2c0] silence_" ++ js kind ++ js ": "
    ++ numeral_text x ++ rest_of_line.

(** An interval as the tool reports it: the start number, the end number,
    and what follows each of them. *)
Record reported : Type := {
  start_stamp : numeral;
  after_start : jsstring;
  end_stamp : numeral;
  after_end : jsstring
}.

Fixpoint render_reported (intervals : list reported) : jsstring :=
  match intervals with
  | [] => []
  | i :: rest =>
      marker_text "start" (start_stamp i) (after_start i)
        ++ marker_text "end" (end_stamp i) (after_end i)
        ++ render_reported rest
  end.

(** The sign of a volume as the tool prints it. *)
Definition sign_text (negative : bool) : jsstring :=
  if negative then js "-" else [].

(** The line on which the volume analysis reports the mean volume. *)
Definition volume_line (negative : bool) (x : numeral) : jsstring :=
  js "[Parsed_volumedetect_0 @ 0x55d0c8a1b2c0] mean_volume: "
    ++ sign_text negative ++ numeral_text x ++ js " dB".

(** What is left of the markers after the balanced pairs: nothing, or one
    start. *)
Definition lone_start_or_nothing (tail : list marker) : Prop :=
  tail = [] \/ exists c, tail = [(js "start", c)].

(** One interval as the tool prints it, with a progress line after the
    start line and the duration after the end number. *)
Definition sample_report : reported := {|
  start_stamp := {| int_first := D2; int_more := []; fraction := None |};
  after_start := [10%N] ++ js "frame=  100 fps=0.0" ++ [13%N];
  end_stamp := {| int_first := D3; int_more := [];
                  fraction := Some (D5, []) |};
  after_end := js " | silence_duration: 1.5" ++ [10%N]
|}.

(** A text without any line terminator. *)
Definition single_line (t : jsstring) : bool :=
  forallb (fun c => negb (is_line_terminator c)) t.

(** The number of single quotes of a path. *)
Definition quotes (filePath : jsstring) : nat :=
  count_occ N.eq_dec filePath 39%N.

(** The probe of [isVideoFile]. *)
Definition probe (path : jsstring) : effect :=
  Ffprobe [AStr (js "-i"); AStr path].

(** The chunk file of a keep interval and the invocation that extracts it
    (lines 100 and 101). *)
Definition chunk_path (host : Host) (chunkedVideoDirname outputVideoExtname
    : jsstring) (p : period) : jsstring :=
  path_join host chunkedVideoDirname
    (Number_toString host (fst p) ++ js "-" ++ Number_toString host (snd p)
       ++ outputVideoExtname).

Definition extraction_args (host : Host) (videoPath chunkedVideoDirname
    outputVideoExtname : jsstring) (p : period) : list arg :=
  [AStr (js "-y"); AStr (js "-ss"); ANum (fst p);
   AStr (js "-t"); ANum (Number_sub (snd p) (fst p));
   AStr (js "-i"); AStr videoPath;
   AStr (chunk_path host chunkedVideoDirname outputVideoExtname p)].

Definition extraction (host : Host) (videoPath chunkedVideoDirname
    outputVideoExtname : jsstring) (p : period) : effect :=
  Ffmpeg (extraction_args host videoPath chunkedVideoDirname
            outputVideoExtname p).

(** The output path of single-file processing (lines 60-65). *)
Definition output_path (host : Host) (videoPath : jsstring)
  (outputVideoPath : option jsstring) : jsstring :=
  match outputVideoPath with
  | Some (c :: p) => c :: p
  | _ =>
      path_join host (path_dirname host videoPath)
        (path_basename_ext host videoPath (path_extname host videoPath)
           ++ js ".silenceremoved" ++ path_extname host videoPath)
  end.

(** The three analysis invocations of a file whose mean volume is
    [meanVolume]. *)
Definition analysis (host : Host) (videoPath : jsstring)
  (meanVolume : Number) : trace :=
  [Ffprobe (duration_args videoPath);
   Ffmpeg (volumedetect_args videoPath);
   Ffmpeg (silencedetect_args host videoPath (Number_sub meanVolume 0)
             (Number_add minimumSilentDuration remainingSilentDuration))].

(** The concatenation invocation (line 112). *)
Definition concatenation_args (concatFilePath outputVideoPath : jsstring)
  : list arg :=
  [AStr (js "-y"); AStr (js "-f"); AStr (js "concat");
   AStr (js "-safe"); AStr (js "0"); AStr (js "-i");
   AStr concatFilePath; AStr (js "-c"); AStr (js "copy");
   AStr outputVideoPath].

(** The output directory of directory mode (lines 28-32). *)
Definition output_dir (host : Host) (videoDirPath : jsstring)
  (outputDirPath : option jsstring) : jsstring :=
  match outputDirPath with
  | Some (c :: p) => c :: p
  | _ =>
      path_join host (path_dirname host videoDirPath)
        (path_basename host videoDirPath ++ js ".silenceremoved")
  end.

(** The directory of the chunks and of the listing file (line 67). *)
Definition tmp_dir (host : Host) (videoPath : jsstring)
  (outputVideoPath : option jsstring) : jsstring :=
  output_path host videoPath outputVideoPath ++ js ".tmp".

(** Everything single-file processing does up to and with the writing of
    the listing file, for the keep intervals [keep]. *)
Definition steps_to_listing (host : Host) (videoPath : jsstring)
  (outputVideoPath : option jsstring) (meanVolume : Number)
  (keep : list period) : trace :=
  let out := output_path host videoPath outputVideoPath in
  let tmp := out ++ js ".tmp" in
  let ext := path_extname host out in
  analysis host videoPath meanVolume
    ++ [Mkdirp tmp]
    ++ map (extraction host videoPath tmp ext) keep
    ++ [OutputFile (path_join host tmp (js "filelist.txt"))
          (concatFileContent (map (chunk_path host tmp ext) keep))].

(** The concatenation of single-file processing. *)
Definition concat_step (host : Host) (videoPath : jsstring)
  (outputVideoPath : option jsstring) : list arg :=
  let out := output_path host videoPath outputVideoPath in
  concatenation_args (path_join host (out ++ js ".tmp") (js "filelist.txt"))
    out.

(** The message that directory mode lets pass. *)
Definition buffering_message : jsstring :=
  js "Too many packets buffered for output stream".

(** ** Further hosts to run the program on

    [test_host] is [sample_host] with other tools and another directory
    listing. *)

Definition test_host
  (ffprobe ffmpeg : trace -> list arg -> result jsstring)
  (entries : list jsstring) : Host := {|
  parseFloat := decimal_parseFloat;
  Number_toString := fun _ => js "0";
  path_basename := fun p => p;
  path_basename_ext := fun p _ => p;
  path_dirname := fun _ => js ".";
  path_extname := fun _ => js ".mp4";
  path_join := fun a b => a ++ js "/" ++ b;
  path_invalid_arg := Error (js "The path argument must be of type string");
  ffprobe_answer := ffprobe;
  ffmpeg_answer := ffmpeg;
  readdir_answer := fun _ _ => Ok entries;
  mkdirp_answer := fun _ _ => Ok tt;
  outputFile_answer := fun _ _ _ => Ok tt;
  remove_answer := fun _ _ => Ok tt
|}.

(** The output of the volume analysis of the hosts. *)
Definition quiet_output : jsstring :=
  js "[Parsed_volumedetect_0 @ 0x55d0c8a1b2c0] mean_volume: -23.5 dB".

(** The probing tool reports ten seconds; no silence is detected. *)
Definition long_host : Host :=
  test_host (fun _ _ => Ok (js "10")) quiet_ffmpeg [js "a.mp4"; js "b.mp4"].

(** The probing tool accepts nothing. *)
Definition blind_host : Host :=
  test_host (fun _ _ => Throw (Error (js "Invalid data found")))
    quiet_ffmpeg [js "notes.txt"].

(** The probing tool accepts the paths outside [out/] and fails on the
    question for the duration with the buffering message. *)
Definition stuck_ffprobe (t : trace) (args : list arg) : result jsstring :=
  match args with
  | [AStr _; AStr p] =>
      if includes (js "out/") p
      then Throw (Error (js "Invalid data found"))
      else Ok []
  | _ => Throw (Error (js "Too many packets buffered for output stream 0:1."))
  end.

Definition stuck_host : Host :=
  test_host stuck_ffprobe quiet_ffmpeg [js "a.mp4"].

(** The tool fails on the extraction that starts at 3. *)
Definition failing_ffmpeg (t : trace) (args : list arg) : result jsstring :=
  match args with
  | [_; _; ANum startPosition; _; _; _; _; _] =>
      if Qeq_bool startPosition 3
      then Throw (Error (js "Conversion failed!"))
      else Ok []
  | _ => quiet_ffmpeg t args
  end.

Definition failing_host : Host :=
  test_host (fun _ _ => Ok (js "10")) failing_ffmpeg [].

(** The tool fails on the concatenation, the one invocation with ten
    arguments. *)
Definition no_concat_ffmpeg (t : trace) (args : list arg) : result jsstring :=
  match args with
  | [_; _; _; _; _; _; _; _; _; _] =>
      Throw (Error (js "Invalid data found when processing input"))
  | _ => quiet_ffmpeg t args
  end.

Definition no_concat_host : Host :=
  test_host (fun _ _ => Ok (js "10")) no_concat_ffmpeg [].

(** The volume analysis reports no mean volume. *)
Definition mute_host : Host :=
  test_host (fun _ _ => Ok (js "10")) (fun _ _ => Ok no_marker_text) [].

(** The silence detection reports an end before any start. *)
Definition broken_ffmpeg (t : trace) (args : list arg) : result jsstring :=
  match args with
  | [_; _; _; AStr filter; _; _; _] =>
      if jsstring_eqb filter (js "volumedetect") then Ok quiet_output
      else Ok end_first_text
  | _ => Ok []
  end.

Definition broken_host : Host :=
  test_host (fun _ _ => Ok (js "10")) broken_ffmpeg [].

(** * Theorems *)

(** ** Rounding to the nearest double *)

Section Rounding.

Lemma rne_compat (t u : Q) : t == u -> rne t = rne u.
Proof.
  intros E. unfold rne. rewrite (Qfloor_comp t u E).
  assert (C : Qcompare (t - inject_Z (Qfloor u)) (1 # 2)
              = Qcompare (u - inject_Z (Qfloor u)) (1 # 2)).
  { apply Qcompare_comp; [now rewrite E | reflexivity]. }
  now rewrite C.
Qed.

Lemma rne_bounds (t : Q) :
  (Qfloor t <= rne t <= Qfloor t + 1)%Z
  /\ (rne t = (Qfloor t + 1)%Z -> inject_Z (Qfloor t) + (1 # 2) <= t)
  /\ (rne t = Qfloor t -> t <= inject_Z (Qfloor t) + (1 # 2)).
Proof.
  unfold rne. set (f := Qfloor t).
  destruct (Qcompare_spec (t - inject_Z f) (1 # 2)) as [E|L|G].
  - destruct (Z.even f); (split; [lia | split; intros _; lra]).
  - split; [lia | split; intros H; [exfalso; lia | lra]].
  - split; [lia | split; intros H; [lra | exfalso; lia]].
Qed.

Lemma rne_mono (t u : Q) : t <= u -> (rne t <= rne u)%Z.
Proof.
  intros H. pose proof (Qfloor_resp_le t u H) as F.
  destruct (rne_bounds t) as (Bt & Ut & Lt).
  destruct (rne_bounds u) as (Bu & Uu & Lu).
  destruct (Z.eq_dec (Qfloor t) (Qfloor u)) as [E|N]; [|lia].
  destruct (Z.eq_dec (rne t) (Qfloor t + 1)) as [A|A];
    destruct (Z.eq_dec (rne u) (Qfloor u)) as [B|B]; try lia.
  (* t rounds up, u rounds down, same floor: both sit on the tie *)
  specialize (Ut A). specialize (Lu B). rewrite E in Ut.
  assert (T : t == u) by lra.
  rewrite (rne_compat t u T). lia.
Qed.

Lemma rne_Z (n : Z) : rne (inject_Z n) = n.
Proof.
  unfold rne. rewrite Qfloor_Z.
  destruct (Qcompare_spec (inject_Z n - inject_Z n) (1 # 2)) as [E|L|G].
  - exfalso. lra.
  - reflexivity.
  - exfalso. lra.
Qed.

Lemma rne_le_Z (t : Q) (n : Z) : t <= inject_Z n -> (rne t <= n)%Z.
Proof. intros H. rewrite <- (rne_Z n). now apply rne_mono. Qed.

Lemma rne_ge_Z (t : Q) (n : Z) : inject_Z n <= t -> (n <= rne t)%Z.
Proof. intros H. rewrite <- (rne_Z n). now apply rne_mono. Qed.

(** ** Powers of two *)

Lemma pow2_pos (e : Z) : 0 < 2 ^ e.
Proof. apply Qpower_0_lt. reflexivity. Qed.

Lemma pow2_add (a b : Z) : 2 ^ (a + b) == 2 ^ a * 2 ^ b.
Proof. apply Qpower_plus. discriminate. Qed.

Lemma pow2_Z (n : Z) : (0 <= n)%Z -> 2 ^ n == inject_Z (2 ^ n).
Proof. intros H. now rewrite Zpower_Qpower. Qed.

Lemma pow2_le (a b : Z) : (a <= b)%Z -> 2 ^ a <= 2 ^ b.
Proof. intros H. apply Qpower_le_compat_l; [exact H | discriminate]. Qed.

Lemma pow2_div (a b : Z) : 2 ^ a / 2 ^ b == 2 ^ (a - b).
Proof. symmetry. apply Qpower_minus. discriminate. Qed.

(** ** The binary logarithm *)

Lemma ilog2_spec (q : Q) :
  0 < q -> 2 ^ ilog2 q <= q /\ q < 2 ^ (ilog2 q + 1).
Proof.
  intros Hq. unfold ilog2. destruct (Qle_bool 1 q) eqn:B.
  - apply Qle_bool_iff in B.
    assert (F : (1 <= Qfloor q)%Z).
    { rewrite <- (Qfloor_Z 1). now apply Qfloor_resp_le. }
    destruct (Z.log2_spec (Qfloor q)) as [L U]; [lia|].
    pose proof (Z.log2_nonneg (Qfloor q)) as N.
    rewrite !pow2_Z by lia. split.
    + apply Qle_trans with (inject_Z (Qfloor q)); [|apply Qfloor_le].
      rewrite <- Zle_Qle. exact L.
    + apply Qlt_le_trans with (inject_Z (Qfloor q + 1)); [apply Qlt_floor|].
      rewrite <- Zle_Qle. replace (Z.log2 (Qfloor q) + 1)%Z
        with (Z.succ (Z.log2 (Qfloor q))) by lia. lia.
  - assert (Q1 : q < 1).
    { apply Qnot_le_lt. intros H. apply Qle_bool_iff in H. congruence. }
    assert (M : q * / q == 1) by (apply Qmult_inv_r; lra).
    set (u := / q) in *.
    assert (I : 1 < u) by nra.
    set (c := Qceiling u).
    assert (Hc : u <= inject_Z c) by apply Qle_ceiling.
    assert (Hc' : inject_Z (c - 1) < u) by apply Qceiling_lt.
    assert (C1 : (1 < c)%Z).
    { apply Z.lt_nge. intros H1. rewrite Zle_Qle in H1.
      change (inject_Z c <= 1) in H1. lra. }
    destruct (Z.log2_up_spec c C1) as [L U].
    assert (P : (0 < Z.log2_up c)%Z) by (apply Z.log2_up_pos; lia).
    assert (E1 : 2 ^ (- Z.log2_up c) == / inject_Z (2 ^ Z.log2_up c)).
    { rewrite Qpower_opp, pow2_Z by lia. reflexivity. }
    assert (E2 : 2 ^ (- Z.log2_up c + 1)
                 == / inject_Z (2 ^ Z.pred (Z.log2_up c))).
    { replace (- Z.log2_up c + 1)%Z with (- Z.pred (Z.log2_up c))%Z by lia.
      rewrite Qpower_opp, pow2_Z by lia. reflexivity. }
    rewrite E1, E2.
    assert (Pu : 0 < inject_Z (2 ^ Z.log2_up c)).
    { rewrite <- pow2_Z by lia. apply pow2_pos. }
    assert (Pl : 0 < inject_Z (2 ^ Z.pred (Z.log2_up c))).
    { rewrite <- pow2_Z by lia. apply pow2_pos. }
    rewrite Zle_Qle in U. apply Z.lt_le_pred in L. rewrite Zle_Qle in L.
    replace (Z.pred c) with (c - 1)%Z in L by lia.
    split.
    + apply Qle_shift_inv_r; [exact Pu | nra].
    + apply Qlt_shift_inv_l; [exact Pl | nra].
Qed.

Lemma ilog2_mono (x y : Q) : 0 < x -> x <= y -> (ilog2 x <= ilog2 y)%Z.
Proof.
  intros Hx H. apply Z.le_ngt. intros C.
  destruct (ilog2_spec x Hx) as [Lx _].
  destruct (ilog2_spec y) as [_ Uy]; [lra|].
  pose proof (pow2_le (ilog2 y + 1) (ilog2 x) ltac:(lia)) as P. lra.
Qed.

(** ** Rounding positive numbers *)

Lemma exponent_mono (x y : Q) :
  0 < x -> x <= y -> (exponent x <= exponent y)%Z.
Proof.
  intros Hx H. unfold exponent. pose proof (ilog2_mono x y Hx H). lia.
Qed.

Lemma div_pow2_le (x y : Q) (e : Z) : x <= y -> x / 2 ^ e <= y / 2 ^ e.
Proof.
  intros H. unfold Qdiv. apply Qmult_le_compat_r; [exact H|].
  apply Qinv_le_0_compat, Qlt_le_weak, pow2_pos.
Qed.

Lemma round_pos_nonneg (x : Q) : 0 <= x -> 0 <= round_pos x.
Proof.
  intros H. unfold round_pos. pose proof (pow2_pos (exponent x)) as P.
  assert (R : (0 <= rne (x / 2 ^ exponent x))%Z).
  { apply rne_ge_Z. change (inject_Z 0) with 0.
    apply Qle_shift_div_l; [exact P | now rewrite Qmult_0_l]. }
  rewrite Zle_Qle in R. change (inject_Z 0) with 0 in R. nra.
Qed.

Lemma round_pos_mono (x y : Q) :
  0 < x -> x <= y -> round_pos x <= round_pos y.
Proof.
  intros Hx H. unfold round_pos.
  pose proof (exponent_mono x y Hx H) as E.
  pose proof (pow2_pos (exponent x)) as Px.
  pose proof (pow2_pos (exponent y)) as Py.
  destruct (Z.eq_dec (exponent x) (exponent y)) as [Eq|Ne].
  - rewrite Eq in *.
    assert (R : (rne (x / 2 ^ exponent y) <= rne (y / 2 ^ exponent y))%Z)
      by now apply rne_mono, div_pow2_le.
    rewrite Zle_Qle in R. nra.
  - (* a binade apart: a power of two lies between the two *)
    assert (Ey : exponent y = (ilog2 y - 52)%Z) by (unfold exponent in *; lia).
    assert (Lx : (ilog2 x + 1 <= ilog2 y)%Z) by (unfold exponent in *; lia).
    set (k := ilog2 y) in *.
    destruct (ilog2_spec x Hx) as [_ Ux].
    destruct (ilog2_spec y) as [Ly _]; [lra|]. fold k in Ly.
    pose proof (pow2_le _ _ Lx) as Pk.
    assert (A : (rne (x / 2 ^ exponent x) <= 2 ^ (k - exponent x))%Z).
    { apply rne_le_Z. rewrite <- pow2_Z by lia. rewrite <- pow2_div.
      apply div_pow2_le. lra. }
    assert (B : (2 ^ 52 <= rne (y / 2 ^ exponent y))%Z).
    { apply rne_ge_Z. rewrite <- pow2_Z by lia.
      replace 52%Z with (k - exponent y)%Z by lia. rewrite <- pow2_div.
      now apply div_pow2_le. }
    rewrite Zle_Qle in A, B. rewrite <- pow2_Z in A, B by lia.
    assert (Sx : 2 ^ (k - exponent x) * 2 ^ exponent x == 2 ^ k).
    { rewrite <- pow2_add. now replace (k - exponent x + exponent x)%Z with k by lia. }
    assert (Sy : 2 ^ 52 * 2 ^ exponent y == 2 ^ k).
    { rewrite <- pow2_add. now replace (52 + exponent y)%Z with k by lia. }
    nra.
Qed.

(** ** Rounding *)

Lemma round64_compat (x y : Q) : x == y -> round64 x = round64 y.
Proof. intros E. unfold round64. now rewrite (Qred_complete x y E). Qed.

Lemma round_signed_mono (a b : Q) :
  a <= b -> round_signed a <= round_signed b.
Proof.
  intros Hab. unfold round_signed.
  destruct (Qcompare_spec a 0) as [A|A|A];
    destruct (Qcompare_spec b 0) as [B|B|B]; try (exfalso; lra).
  - lra.
  - apply round_pos_nonneg. lra.
  - pose proof (round_pos_nonneg (- a)). lra.
  - assert (R : round_pos (- b) <= round_pos (- a))
      by (apply round_pos_mono; lra).
    lra.
  - pose proof (round_pos_nonneg (- a)). pose proof (round_pos_nonneg b). lra.
  - now apply round_pos_mono.
Qed.

Lemma round64_mono (x y : Q) : x <= y -> round64 x <= round64 y.
Proof.
  intros H. unfold round64.
  pose proof (Qred_correct x) as Ex. pose proof (Qred_correct y) as Ey.
  pose proof (Qred_correct (round_signed (Qred x))) as Rx.
  pose proof (Qred_correct (round_signed (Qred y))) as Ry.
  assert (C : round_signed (Qred x) <= round_signed (Qred y))
    by (apply round_signed_mono; lra).
  lra.
Qed.

Lemma round64_le_1 (z : Q) : z <= 1 -> round64 z <= 1.
Proof. intros H. change 1 with (round64 1). now apply round64_mono. Qed.

Lemma round64_gt_1 (z : Q) : 1 + 2 ^ (-52) <= z -> 1 < round64 z.
Proof.
  intros H. apply Qlt_le_trans with (round64 (1 + 2 ^ (-52))).
  - reflexivity.
  - now apply round64_mono.
Qed.

Lemma pow2_lt_inv (a b : Z) : 2 ^ a < 2 ^ b -> (a < b)%Z.
Proof.
  intros H. apply Z.lt_nge. intros C. pose proof (pow2_le b a C). lra.
Qed.

Lemma ilog2_lt (r : Q) (m : Z) : 0 < r -> r < 2 ^ m -> (ilog2 r < m)%Z.
Proof.
  intros Hr H. destruct (ilog2_spec r Hr) as [L _].
  apply pow2_lt_inv. lra.
Qed.

Lemma ilog2_ge (r : Q) (m : Z) : 0 < r -> 2 ^ m <= r -> (m <= ilog2 r)%Z.
Proof.
  intros Hr H. destruct (ilog2_spec r Hr) as [_ U].
  assert (P : 2 ^ m < 2 ^ (ilog2 r + 1)) by lra.
  apply pow2_lt_inv in P. lia.
Qed.

Lemma exponent_ge (q : Q) : (-1074 <= exponent q)%Z.
Proof. unfold exponent. lia. Qed.

(** The significand of a positive number is at most [2 ^ 53]. *)
Lemma significand_bounds (q : Q) :
  0 < q -> (0 <= rne (q / 2 ^ exponent q) <= 2 ^ 53)%Z.
Proof.
  intros Hq. pose proof (pow2_pos (exponent q)) as P. split.
  - apply rne_ge_Z. change (inject_Z 0) with 0.
    apply Qle_shift_div_l; [exact P | rewrite Qmult_0_l; lra].
  - apply rne_le_Z. rewrite <- pow2_Z by lia.
    destruct (ilog2_spec q Hq) as [_ U].
    apply Qle_shift_div_r; [exact P|]. rewrite <- pow2_add.
    assert (E : (ilog2 q + 1 <= 53 + exponent q)%Z) by (unfold exponent; lia).
    pose proof (pow2_le _ _ E). lra.
Qed.

(** A positive multiple of [2 ^ e], with a factor of at most [2 ^ 53] and
    [e] not below the least exponent, is its own rounding. *)
Lemma round_pos_multiple (n e : Z) :
  (0 < n <= 2 ^ 53)%Z -> (-1074 <= e)%Z ->
  round_pos (inject_Z n * 2 ^ e) == inject_Z n * 2 ^ e.
Proof.
  intros [Hn Un] He. set (r := inject_Z n * 2 ^ e).
  pose proof (pow2_pos e) as Pe.
  assert (Hn' : 0 < inject_Z n).
  { change 0 with (inject_Z 0). now rewrite <- Zlt_Qlt. }
  assert (Hr : 0 < r) by (unfold r; nra).
  assert (Un' : inject_Z n <= 2 ^ 53).
  { rewrite pow2_Z by lia. now rewrite <- Zle_Qle. }
  assert (Ur : r <= 2 ^ (53 + e)).
  { rewrite pow2_add. unfold r. nra. }
  unfold round_pos. fold r. set (x := exponent r).
  pose proof (pow2_pos x) as Px.
  destruct (Z_le_gt_dec x e) as [L|G].
  - (* the exponent of [r] is at most [e] *)
    assert (E : r / 2 ^ x == inject_Z (n * 2 ^ (e - x))).
    { rewrite inject_Z_mult, <- pow2_Z by lia. rewrite <- pow2_div.
      unfold r. field. lra. }
    rewrite (rne_compat _ _ E), rne_Z.
    rewrite inject_Z_mult, <- pow2_Z by lia. rewrite <- pow2_div.
    unfold r. field. lra.
  - (* otherwise [r] is [2 ^ (53 + e)] *)
    assert (X : x = (e + 1)%Z).
    { assert (I : (ilog2 r < 54 + e)%Z).
      { apply ilog2_lt; [exact Hr|].
        assert (2 ^ (53 + e) < 2 ^ (54 + e)).
        { replace (54 + e)%Z with (53 + e + 1)%Z by lia.
          rewrite (pow2_add (53 + e) 1). pose proof (pow2_pos (53 + e)).
          change (2 ^ 1) with 2. lra. }
        lra. }
      unfold x, exponent in *. lia. }
    assert (I : (53 + e <= ilog2 r)%Z) by (unfold x, exponent in *; lia).
    destruct (ilog2_spec r Hr) as [Lr _].
    pose proof (pow2_le _ _ I) as P2.
    assert (R : r == 2 ^ (53 + e)) by lra.
    assert (E : r / 2 ^ x == inject_Z (2 ^ 52)).
    { rewrite <- pow2_Z by lia. rewrite R, pow2_div. 
      now replace (53 + e - x)%Z with 52%Z by lia. }
    rewrite (rne_compat _ _ E), rne_Z. rewrite <- pow2_Z by lia.
    rewrite <- pow2_add. rewrite R. now replace (52 + x)%Z with (53 + e)%Z by lia.
Qed.

Lemma round_pos_compat (x y : Q) :
  0 < x -> x == y -> round_pos x == round_pos y.
Proof.
  intros Hx E. apply Qle_antisym; apply round_pos_mono; lra.
Qed.

Lemma round_pos_fixed (q : Q) :
  0 < q -> 0 < round_pos q -> round_pos (round_pos q) == round_pos q.
Proof.
  intros Hq Hr. pose proof (significand_bounds q Hq) as [N U].
  pose proof (pow2_pos (exponent q)) as P.
  unfold round_pos in Hr. unfold round_pos at 2 3.
  set (n := rne (q / 2 ^ exponent q)) in *.
  apply round_pos_multiple; [|apply exponent_ge].
  split; [|exact U].
  destruct (Z.eq_dec n 0) as [Z0|NZ]; [|lia].
  exfalso. rewrite Z0 in Hr. change (inject_Z 0) with 0 in Hr. lra.
Qed.

Lemma round_signed_compat (a b : Q) :
  a == b -> round_signed a == round_signed b.
Proof.
  intros E. apply Qle_antisym; apply round_signed_mono; lra.
Qed.

Lemma round_signed_pos (x : Q) : 0 < x -> round_signed x = round_pos x.
Proof.
  intros H. unfold round_signed.
  destruct (Qcompare_spec x 0) as [A|A|A]; try reflexivity; exfalso; lra.
Qed.

Lemma round_signed_neg (x : Q) :
  x < 0 -> round_signed x = - round_pos (- x).
Proof.
  intros H. unfold round_signed.
  destruct (Qcompare_spec x 0) as [A|A|A]; try reflexivity; exfalso; lra.
Qed.

Lemma round_signed_zero (x : Q) : x == 0 -> round_signed x = 0.
Proof.
  intros H. unfold round_signed.
  destruct (Qcompare_spec x 0) as [A|A|A]; try reflexivity; exfalso; lra.
Qed.

Lemma round_signed_fixed (q : Q) :
  round_signed (round_signed q) == round_signed q.
Proof.
  destruct (Qcompare_spec q 0) as [A|A|A].
  - rewrite (round_signed_zero q A). reflexivity.
  - rewrite (round_signed_neg q A).
    assert (Hq : 0 < - q) by lra.
    pose proof (round_pos_nonneg (- q) (Qlt_le_weak _ _ Hq)) as N.
    destruct (Qlt_le_dec 0 (round_pos (- q))) as [P|Z0].
    + rewrite round_signed_neg by lra.
      rewrite (round_pos_compat (- - round_pos (- q)) (round_pos (- q)))
        by lra.
      now rewrite (round_pos_fixed (- q) Hq P).
    + rewrite round_signed_zero by lra. lra.
  - rewrite (round_signed_pos q A).
    pose proof (round_pos_nonneg q (Qlt_le_weak _ _ A)) as N.
    destruct (Qlt_le_dec 0 (round_pos q)) as [P|Z0].
    + rewrite round_signed_pos by exact P. now apply round_pos_fixed.
    + rewrite round_signed_zero by lra. lra.
Qed.

(** The result of rounding is a double: rounding it again changes
    nothing. *)
Lemma round64_is_double (x : Q) : is_double (round64 x).
Proof.
  unfold is_double, round64. set (s := round_signed (Qred x)).
  assert (E : Qred (Qred s) == s) by (now rewrite !Qred_correct).
  pose proof (round_signed_compat _ _ E) as C.
  pose proof (round_signed_fixed (Qred x)) as F. fold s in F.
  pose proof (Qred_correct (round_signed (Qred (Qred s)))) as R.
  pose proof (Qred_correct s) as R'.
  lra.
Qed.

Lemma round64_ge_next (z : Q) : next_after_minimum <= z -> 1 < round64 z.
Proof. exact (round64_gt_1 z). Qed.

End Rounding.

(** The rounding on numbers whose doubles are known: [0.1], the sum
    [0.1 + 0.2] (which is not the double [0.3]), the differences
    [1.1 - 0.1] and [2.003 - 1.003], two ties (to the even neighbour), and
    the two sums and the half the program computes from its constants:
    [0.2 + 0.4] is the double written [0.6000000000000001], and [0.4 / 2]
    is the double [0.2]. *)
Lemma round64_examples :
  round64 (1 # 10) = (3602879701896397 # 36028797018963968)
  /\ Number_add (round64 (1 # 10)) (round64 (2 # 10))
     = (1351079888211149 # 4503599627370496)
  /\ round64 (3 # 10) = (5404319552844595 # 18014398509481984)
  /\ Number_sub (round64 (11 # 10)) (round64 (1 # 10)) = 1
  /\ Number_sub (round64 (2003 # 1000)) (round64 (1003 # 1000))
     = (4503599627370497 # 4503599627370496)
  /\ round64 9007199254740993 = 9007199254740992
  /\ round64 9007199254740995 = 9007199254740996
  /\ Number_add minimumSilentDuration remainingSilentDuration
     = (1351079888211149 # 2251799813685248)
  /\ Number_div remainingSilentDuration 2 = minimumSilentDuration.
Proof. repeat split; vm_compute; reflexivity. Qed.

(** What the operators of the program return are doubles. *)
Lemma Number_results_are_doubles (x y : Number) :
  is_double (Number_sub x y)
  /\ is_double (Number_add x y)
  /\ is_double (Number_div x y).
Proof. repeat split; apply round64_is_double. Qed.

(** ** Comparisons of numbers *)

Lemma Number_gt_spec (x y : Number) : Number_gt x y = true <-> y < x.
Proof.
  unfold Number_gt. rewrite negb_true_iff.
  destruct (Qle_bool x y) eqn:E.
  - apply Qle_bool_iff in E. split; [discriminate | intros H; exfalso; lra].
  - split; [intros _ | reflexivity].
    apply Qnot_le_lt. intros H. apply Qle_bool_iff in H. congruence.
Qed.

Lemma Number_gt_false (x y : Number) : Number_gt x y = false <-> x <= y.
Proof.
  unfold Number_gt. rewrite negb_false_iff. apply Qle_bool_iff.
Qed.

Lemma exceeds_spec (x y : Number) : exceeds x y = true <-> y < x.
Proof.
  unfold exceeds. destruct (Qcompare_spec x y) as [E|L|G].
  - split; [discriminate | intros H; exfalso; lra].
  - split; [discriminate | intros H; exfalso; lra].
  - split; [intros _; exact G | reflexivity].
Qed.

Lemma exceeds_false (x y : Number) : exceeds x y = false <-> x <= y.
Proof.
  destruct (exceeds x y) eqn:E.
  - apply exceeds_spec in E. split; [discriminate | intros H; exfalso; lra].
  - split; [intros _ | reflexivity].
    apply Qnot_lt_le. intros H. apply exceeds_spec in H. congruence.
Qed.

(** The test of the program is the test [x > y] on the values. *)
Lemma Number_gt_exceeds (x y : Number) : Number_gt x y = exceeds x y.
Proof.
  destruct (exceeds x y) eqn:E.
  - apply Number_gt_spec. now apply exceeds_spec.
  - apply Number_gt_false. now apply exceeds_false.
Qed.

(** A difference of at most the minimum is at most the minimum in double
    precision; a difference of at least the next double after the minimum
    is above the minimum in double precision. *)
Lemma Number_sub_at_most (x y : Number) :
  x - y <= minimumNotSilentDuration ->
  Number_sub x y <= minimumNotSilentDuration.
Proof. apply round64_le_1. Qed.

Lemma Number_sub_above (x y : Number) :
  next_after_minimum <= x - y ->
  minimumNotSilentDuration < Number_sub x y.
Proof. apply round64_ge_next. Qed.

Lemma Number_sub_above_exact (x y : Number) :
  minimumNotSilentDuration < Number_sub x y ->
  minimumNotSilentDuration < x - y.
Proof.
  intros H. apply Qnot_le_lt. intros L.
  apply Number_sub_at_most in L. lra.
Qed.

(** ** The planner *)

Section Planner.

Implicit Types (silences acc : list period) (cursor D t : Number).

(** The loop of the program, started in any state, appends to its array
    what the cursor algorithm in double precision emits from that cursor
    on. *)
Lemma plan_from_state silences D : forall acc cursor,
  (let '(notSilentPeriodList, lastEndPosition) :=
     fold_left plan_step silences (acc, cursor) in
   if Number_gt (Number_sub D lastEndPosition) minimumNotSilentDuration
   then notSilentPeriodList ++ [(lastEndPosition, D)]
   else notSilentPeriodList)
  = acc ++ cursor_plan Number_sub cursor silences D.
Proof.
  induction silences as [|[s e] rest IH]; intros acc cursor; cbn [fold_left].
  - cbn [cursor_plan]. rewrite Number_gt_exceeds.
    destruct (exceeds _ _); [reflexivity | now rewrite app_nil_r].
  - unfold plan_step at 2. rewrite IH. cbn [cursor_plan].
    rewrite Number_gt_exceeds.
    destruct (exceeds (Number_sub s cursor) _).
    + now rewrite <- app_assoc.
    + reflexivity.
Qed.

Lemma plan_is_cursor_plan silences D :
  planNotSilentPeriodList silences D = cursor_plan Number_sub 0 silences D.
Proof.
  unfold planNotSilentPeriodList. apply (plan_from_state silences D [] 0).
Qed.

(** The cursor algorithm keeps the gaps that are longer than the minimum
    in double precision. *)
Lemma cursor_plan_filter silences D : forall cursor,
  cursor_plan Number_sub cursor silences D
  = filter long_in_double (gap_spans cursor silences D).
Proof.
  induction silences as [|[s e] rest IH]; intros cursor;
    cbn [cursor_plan gap_spans filter].
  - unfold long_in_double, double_length. cbn [fst snd].
    now destruct (exceeds _ _).
  - rewrite IH. unfold long_in_double at 2, double_length.
    cbn [fst snd]. now destruct (exceeds (Number_sub s cursor) _).
Qed.

Lemma plan_is_filter silences D :
  planNotSilentPeriodList silences D
  = filter long_in_double (gap_spans 0 silences D).
Proof. now rewrite plan_is_cursor_plan, cursor_plan_filter. Qed.

Lemma long_in_double_spec (g : period) :
  long_in_double g = true <-> minimumNotSilentDuration < double_length g.
Proof. apply exceeds_spec. Qed.

Lemma long_in_double_false (g : period) :
  long_in_double g = false <-> at_most_minimum_in_double g.
Proof. apply exceeds_false. Qed.

(** A kept gap is longer than the minimum, exactly. *)
Lemma long_in_double_exact (g : period) :
  long_in_double g = true -> minimumNotSilentDuration < snd g - fst g.
Proof.
  intros H. apply long_in_double_spec in H.
  now apply Number_sub_above_exact.
Qed.

End Planner.

(** C2, as amended: the planner is the cursor algorithm with the
    difference computed in double precision, as JavaScript does: from
    cursor 0 it emits [(cursor, s)] at a silence [(s, e)] exactly when the
    double nearest to [s - cursor] exceeds the minimum and moves the cursor
    to [e], and after the last silence it emits [(cursor, D)] exactly when
    the double nearest to [D - cursor] exceeds the minimum.  On the exact
    differences: a gap is only emitted when its exact length exceeds the
    minimum, and it is emitted whenever its exact length is at least the
    next double after the minimum.  With silence [(2, 3)] and duration 10
    the plan is [(0, 2); (3, 10)]. *)
Theorem planner_follows_cursor_algorithm :
  (forall silences D,
      planNotSilentPeriodList silences D
      = cursor_plan Number_sub 0 silences D)
  /\ (forall x y,
        exceeds (Number_sub x y) minimumNotSilentDuration = true ->
        minimumNotSilentDuration < x - y)
  /\ (forall x y,
        next_after_minimum <= x - y ->
        exceeds (Number_sub x y) minimumNotSilentDuration = true)
  /\ minimumNotSilentDuration = 1
  /\ planNotSilentPeriodList [(2, 3)] 10 = [(0, 2); (3, 10)].
Proof.
  split; [exact plan_is_cursor_plan|]. split; [|split; [|split]].
  - intros x y H. apply exceeds_spec in H.
    now apply Number_sub_above_exact.
  - intros x y H. apply exceeds_spec. now apply Number_sub_above.
  - reflexivity.
  - vm_compute. reflexivity.
Qed.

(** C2, as stated with the exact difference, fails where the rounding of
    the difference matters: with the silences [(0, 0.1)] and [(1.1, 2)]
    and duration 2, the gap from 0.1 to 1.1 is longer than the minimum (the
    double written [1.1] minus the double written [0.1] is above 1), and
    the algorithm on exact differences emits it; the program computes the
    difference as the double [1] and emits nothing. *)
Lemma planner_differs_from_exact_cursor_algorithm :
  planNotSilentPeriodList [(0, double_0_1); (double_1_1, 2)] 2 = []
  /\ minimumNotSilentDuration < double_1_1 - double_0_1
  /\ Number_sub double_1_1 double_0_1 = 1
  /\ cursor_plan Qminus 0 [(0, double_0_1); (double_1_1, 2)] 2
     = [(double_0_1, double_1_1)].
Proof.
  split; [vm_compute; reflexivity|].
  split; [vm_compute; reflexivity|].
  split; vm_compute; reflexivity.
Qed.

(** ** The padding pass *)

Lemma adjust_from_length len : forall l i,
  length (adjust_from len i l) = length l.
Proof.
  induction l as [|[s e] rest IH]; intros i; cbn; [reflexivity|].
  now rewrite IH.
Qed.




(** ** What the planner keeps and what it drops *)

Section Cover.

Implicit Types (silences : list period) (lo D t : Number) (g : period).

Lemma in_spans_nil t : in_spans t [] <-> False.
Proof. unfold in_spans. apply Exists_nil. Qed.

Lemma in_spans_cons t g (l : list period) :
  in_spans t (g :: l) <-> in_span t g \/ in_spans t l.
Proof. unfold in_spans. apply Exists_cons. Qed.

Lemma in_spans_filter_cons (f : period -> bool) t g (l : list period) :
  in_spans t (filter f (g :: l))
  <-> (f g = true /\ in_span t g) \/ in_spans t (filter f l).
Proof.
  cbn [filter]. destruct (f g).
  - rewrite in_spans_cons. tauto.
  - split; [tauto | intros [[H _]|H]; [discriminate | exact H]].
Qed.

Lemma silences_within_le silences D : forall lo,
  silences_within lo silences D -> lo <= D.
Proof.
  induction silences as [|[s e] rest IH]; intros lo H; cbn in H.
  - exact H.
  - destruct H as (H1 & H2 & H3). apply IH in H3. lra.
Qed.

(** Every gap lies inside [[lo, D]] and is not reversed. *)
Lemma gap_spans_bounds silences D : forall lo,
  silences_within lo silences D ->
  Forall (fun g => lo <= fst g /\ fst g <= snd g /\ snd g <= D)
    (gap_spans lo silences D).
Proof.
  induction silences as [|[s e] rest IH]; intros lo H; cbn in H |- *.
  - constructor; [cbn; lra | constructor].
  - destruct H as (H1 & H2 & H3).
    pose proof (silences_within_le _ _ _ H3) as HD.
    constructor; [cbn; lra|].
    eapply Forall_impl; [|apply IH, H3].
    cbn. intros g (G1 & G2 & G3). lra.
Qed.

Lemma silences_bounds silences D : forall lo,
  silences_within lo silences D ->
  Forall (fun p => lo <= fst p /\ fst p <= snd p /\ snd p <= D) silences.
Proof.
  induction silences as [|[s e] rest IH]; intros lo H; cbn in H |- *.
  - constructor.
  - destruct H as (H1 & H2 & H3).
    pose proof (silences_within_le _ _ _ H3) as HD.
    constructor; [cbn; lra|].
    eapply Forall_impl; [|apply IH, H3].
    cbn. intros g (G1 & G2 & G3). lra.
Qed.

Lemma in_spans_bounds (l : list period) lo D t :
  Forall (fun g => lo <= fst g /\ fst g <= snd g /\ snd g <= D) l ->
  in_spans t l -> lo <= t /\ t < D.
Proof.
  intros HF HE. unfold in_spans in HE. rewrite Exists_exists in HE.
  destruct HE as (g & Hin & H1 & H2).
  rewrite Forall_forall in HF. specialize (HF g Hin). lra.
Qed.

Lemma short_span_bounds (short : period -> Prop) (l : list period)
  lo D t :
  Forall (fun g => lo <= fst g /\ fst g <= snd g /\ snd g <= D) l ->
  Exists (fun g => short g /\ in_span t g) l -> lo <= t /\ t < D.
Proof.
  intros HF HE. apply (in_spans_bounds l lo D t HF).
  unfold in_spans. eapply Exists_impl; [|exact HE]. cbn beta. tauto.
Qed.

Lemma Forall_filter_keeps {A : Type} (P : A -> Prop) (f : A -> bool)
  (l : list A) : Forall P l -> Forall P (filter f l).
Proof.
  induction 1 as [|x l Hx Hl IH]; cbn; [constructor|].
  destruct (f x); [constructor|]; assumption.
Qed.

Lemma StronglySorted_filter_keeps {A : Type} (R : A -> A -> Prop)
  (f : A -> bool) (l : list A) :
  StronglySorted R l -> StronglySorted R (filter f l).
Proof.
  induction 1 as [|x l Hl IH Hx]; cbn; [constructor|].
  destruct (f x); [constructor|]; try assumption.
  now apply Forall_filter_keeps.
Qed.

Lemma silences_from_sorted silences : forall lo,
  silences_from lo silences -> silences_sorted silences.
Proof.
  destruct silences as [|[s e] rest]; intros lo H; cbn in H |- *.
  - exact I.
  - tauto.
Qed.

(** No gap starts before the cursor. *)
Lemma gap_spans_starts silences D : forall lo,
  silences_from lo silences ->
  Forall (fun g => lo <= fst g) (gap_spans lo silences D).
Proof.
  induction silences as [|[s e] rest IH]; intros lo H; cbn in H |- *.
  - constructor; [cbn [fst]; lra | constructor].
  - destruct H as (H1 & H2 & H3). constructor; [cbn [fst]; lra|].
    eapply Forall_impl; [|apply IH, H3].
    cbn beta. intros g G. lra.
Qed.

(** Every gap ends before any later gap starts, whatever the cursor and
    the duration are. *)
Lemma gap_spans_sorted silences D : forall lo,
  silences_sorted silences ->
  StronglySorted (fun p q => snd p <= fst q) (gap_spans lo silences D).
Proof.
  induction silences as [|[s e] rest IH]; intros lo H; cbn in H |- *.
  - repeat constructor.
  - destruct H as (H1 & H2). constructor.
    + apply IH. now apply (silences_from_sorted rest e).
    + eapply Forall_impl; [|apply gap_spans_starts, H2].
      cbn [fst snd]. intros g G. lra.
Qed.

Lemma plan_sorted silences D :
  silences_sorted silences ->
  sorted_non_overlapping (planNotSilentPeriodList silences D).
Proof.
  intros H. rewrite plan_is_filter. split.
  - apply Forall_forall. intros g Hg. apply filter_In in Hg.
    destruct Hg as [_ Hg]. apply long_in_double_exact in Hg.
    unfold minimumNotSilentDuration in Hg. lra.
  - apply StronglySorted_filter_keeps, gap_spans_sorted, H.
Qed.

(** The kept gaps and the silences fill [[lo, D)] but for the gaps whose
    length in double precision is at most the minimum. *)
Lemma cover_from silences D t : forall lo,
  silences_within lo silences D ->
  (in_spans t (filter long_in_double (gap_spans lo silences D))
   \/ in_spans t silences)
  <-> ((lo <= t /\ t < D)
       /\ ~ Exists (fun g => at_most_minimum_in_double g /\ in_span t g)
             (gap_spans lo silences D)).
Proof.
  induction silences as [|[s e] rest IH]; intros lo H.
  - cbn [gap_spans]. rewrite in_spans_filter_cons, Exists_cons. cbn [filter].
    rewrite !in_spans_nil, Exists_nil, long_in_double_spec.
    unfold at_most_minimum_in_double, in_span. cbn [fst snd]. cbn in H.
    set (d := double_length (lo, D)).
    destruct (Qlt_le_dec minimumNotSilentDuration d);
      split; intros; intuition lra.
  - cbn in H. destruct H as (H1 & H2 & H3). specialize (IH e H3).
    pose proof (silences_within_le _ _ _ H3) as HD.
    pose proof (in_spans_bounds _ e D t
                  (Forall_filter_keeps _ long_in_double _
                     (gap_spans_bounds _ _ _ H3))) as BK.
    pose proof (short_span_bounds at_most_minimum_in_double _ e D t
                  (gap_spans_bounds _ _ _ H3)) as BD.
    pose proof (in_spans_bounds _ e D t (silences_bounds _ _ _ H3)) as BS.
    cbn [gap_spans].
    rewrite in_spans_filter_cons, in_spans_cons, Exists_cons,
      long_in_double_spec.
    unfold at_most_minimum_in_double at 1. unfold in_span. cbn [fst snd].
    set (d := double_length (lo, s)).
    destruct (Qlt_le_dec t s) as [Hs|Hs];
      destruct (Qlt_le_dec t e) as [He|He];
      destruct (Qlt_le_dec minimumNotSilentDuration d) as [Hk|Hk];
      split; intros; intuition lra.
Qed.

Lemma at_most_minimum_double g :
  at_most_minimum g -> at_most_minimum_in_double g.
Proof.
  unfold at_most_minimum, at_most_minimum_in_double, span_length,
    double_length. apply Number_sub_at_most.
Qed.

Lemma at_most_minimum_in_double_below g :
  at_most_minimum_in_double g -> below_next_after_minimum g.
Proof.
  unfold at_most_minimum_in_double, below_next_after_minimum, span_length,
    double_length. intros H. apply Qnot_le_lt. intros L.
  apply Number_sub_above in L. lra.
Qed.

Lemma in_short_gap_impl (short short' : period -> Prop) silences D t :
  (forall g, short g -> short' g) ->
  in_short_gap short silences D t -> in_short_gap short' silences D t.
Proof.
  intros I. unfold in_short_gap. apply Exists_impl.
  intros g [A B]. split; [now apply I | exact B].
Qed.

Lemma cover_in_double silences D t :
  silences_within 0 silences D ->
  covers_all_but_short_gaps at_most_minimum_in_double silences D t.
Proof.
  intros W. unfold covers_all_but_short_gaps, in_union, in_short_gap.
  rewrite plan_is_filter. now apply cover_from.
Qed.

End Cover.

(** C1, as amended: for silence intervals in time order that do not
    overlap, the keep intervals of the planner (before padding) are in time
    order and never overlap; when the silence intervals moreover lie within
    [[0, D]], the keep spans together with the silence spans make up
    [[0, D)] without the gaps whose length, computed in double precision
    as the program does, is at most the minimum keep duration.  On the
    exact lengths: the union leaves out every gap of length at most the
    minimum, and leaves out no gap whose length is at least the next
    double after the minimum. *)
Theorem planner_keeps_sorted_and_covers (silences : list period)
  (D : Number) :
  silences_sorted silences ->
  sorted_non_overlapping (planNotSilentPeriodList silences D)
  /\ (silences_within 0 silences D ->
      forall t,
        covers_all_but_short_gaps at_most_minimum_in_double silences D t
        /\ (in_union silences D t ->
            (0 <= t /\ t < D)
            /\ ~ in_short_gap at_most_minimum silences D t)
        /\ ((0 <= t /\ t < D)
            /\ ~ in_short_gap below_next_after_minimum silences D t ->
            in_union silences D t)).
Proof.
  intros H. split; [now apply plan_sorted|].
  intros W t. pose proof (cover_in_double silences D t W) as C.
  split; [exact C|]. unfold covers_all_but_short_gaps in C. split.
  - intros U. apply C in U. destruct U as [B N]. split; [exact B|].
    intros S. apply N.
    exact (in_short_gap_impl _ _ _ _ _ at_most_minimum_double S).
  - intros [B N]. apply C. split; [exact B|].
    intros S. apply N.
    exact (in_short_gap_impl _ _ _ _ _ at_most_minimum_in_double_below S).
Qed.

Lemma planner_keeps_sorted_and_covers_witness :
  silences_sorted [(2, 3); (7 # 2, 5)]
  /\ silences_within 0 [(2, 3); (7 # 2, 5)] 10
  /\ sorted_non_overlapping
       (planNotSilentPeriodList [(2, 3); (7 # 2, 5)] 10)
  /\ covers_all_but_short_gaps at_most_minimum_in_double
       [(2, 3); (7 # 2, 5)] 10 (13 # 4).
Proof.
  assert (H : silences_sorted [(2, 3); (7 # 2, 5)]).
  { cbn. repeat split; lra. }
  assert (W : silences_within 0 [(2, 3); (7 # 2, 5)] 10).
  { cbn. repeat split; lra. }
  split; [exact H|]. split; [exact W|].
  destruct (planner_keeps_sorted_and_covers [(2, 3); (7 # 2, 5)] 10 H)
    as [S C].
  split; [exact S | exact (proj1 (C W (13 # 4)))].
Defined.

(** C1, as stated, fails where a gap is exactly as long as the minimum
    keep duration: with silence [(2, 3)] and duration 4 the gap from 3 to 4
    is dropped although it is not shorter than the minimum, so the point
    3.5 is missing from the union. *)
Lemma planner_drops_gap_of_minimum_length :
  silences_sorted [(2, 3)]
  /\ silences_within 0 [(2, 3)] 4
  /\ planNotSilentPeriodList [(2, 3)] 4 = [(0, 2)]
  /\ ~ covers_all_but_short_gaps shorter_than_minimum [(2, 3)] 4 (7 # 2).
Proof.
  split; [cbn; repeat split; lra|].
  split; [cbn; repeat split; lra|]. split; [vm_compute; reflexivity|].
  unfold covers_all_but_short_gaps, in_union. intros [_ H].
  assert (K : in_spans (7 # 2) (planNotSilentPeriodList [(2, 3)] 4)
              \/ in_spans (7 # 2) [(2, 3)]).
  { apply H. split; [split; lra|].
    unfold in_short_gap. cbn [gap_spans].
    rewrite !Exists_cons, Exists_nil.
    unfold shorter_than_minimum, span_length, in_span,
      minimumNotSilentDuration.
    cbn [fst snd]. intuition lra. }
  replace (planNotSilentPeriodList [(2, 3)] 4) with [(0, 2)] in K
    by (vm_compute; reflexivity).
  rewrite !in_spans_cons, !in_spans_nil in K. unfold in_span in K.
  cbn [fst snd] in K. intuition lra.
Qed.

(** With "at most" for "shorter than" and the exact length, the union
    still differs from the program where the rounding of the length
    matters: with the silences [(0, 0.1)] and [(1.1, 2)] and duration 2,
    the gap from 0.1 to 1.1 is longer than the minimum and yet dropped, so
    the point 0.5 is missing from the union. *)
Lemma planner_drops_gap_above_minimum :
  silences_sorted [(0, double_0_1); (double_1_1, 2)]
  /\ silences_within 0 [(0, double_0_1); (double_1_1, 2)] 2
  /\ minimumNotSilentDuration < span_length (double_0_1, double_1_1)
  /\ ~ covers_all_but_short_gaps at_most_minimum
        [(0, double_0_1); (double_1_1, 2)] 2 (1 # 2).
Proof.
  assert (A : double_0_1 = 3602879701896397 # 36028797018963968)
    by (vm_compute; reflexivity).
  assert (B : double_1_1 = 2476979795053773 # 2251799813685248)
    by (vm_compute; reflexivity).
  split; [rewrite A, B; cbn; repeat split; lra|].
  split; [rewrite A, B; cbn; repeat split; lra|].
  split; [rewrite A, B; unfold span_length, minimumNotSilentDuration;
          cbn [fst snd]; lra|].
  unfold covers_all_but_short_gaps, in_union. intros [_ H].
  assert (K : in_spans (1 # 2)
                (planNotSilentPeriodList
                   [(0, double_0_1); (double_1_1, 2)] 2)
              \/ in_spans (1 # 2) [(0, double_0_1); (double_1_1, 2)]).
  { apply H. split; [split; lra|].
    unfold in_short_gap. cbn [gap_spans].
    rewrite !Exists_cons, Exists_nil.
    unfold at_most_minimum, span_length, in_span, minimumNotSilentDuration.
    cbn [fst snd]. rewrite A, B. intuition lra. }
  replace (planNotSilentPeriodList [(0, double_0_1); (double_1_1, 2)] 2)
    with (@nil period) in K by (vm_compute; reflexivity).
  rewrite !in_spans_cons, !in_spans_nil in K. unfold in_span in K.
  cbn [fst snd] in K. rewrite A, B in K. intuition lra.
Qed.

(** Without the silences lying within [[0, D]] the union is not a part of
    [[0, D)]: with silence [(2, 30)] and duration 10 the point 20 lies in
    the union, whatever gaps are taken to be short. *)
Lemma planner_union_exceeds_duration (short : period -> Prop) :
  silences_sorted [(2, 30)]
  /\ ~ silences_within 0 [(2, 30)] 10
  /\ ~ covers_all_but_short_gaps short [(2, 30)] 10 20.
Proof.
  split; [cbn; repeat split; lra|].
  split; [cbn; intros (_ & _ & H); lra|].
  unfold covers_all_but_short_gaps, in_union. intros [H _].
  assert (K : (0 <= 20 /\ 20 < 10)
              /\ ~ in_short_gap short [(2, 30)] 10 20).
  { apply H. right. rewrite in_spans_cons. left.
    unfold in_span. cbn [fst snd]. lra. }
  lra.
Qed.

(** ** The silence parser on lists of markers *)

Lemma jsstring_eqb_eq (a b : jsstring) : jsstring_eqb a b = true <-> a = b.
Proof.
  revert b. induction a as [|x a IH]; intros [|y b]; cbn;
    try (split; [discriminate | intros H; discriminate H]);
    try (split; reflexivity).
  rewrite andb_true_iff, N.eqb_eq, IH.
  split; [intros [-> ->]; reflexivity | intros H; now injection H].
Qed.

Lemma is_end_not_start (m : marker) : is_end m = true -> is_start m = false.
Proof.
  unfold is_end, is_start. intros H. apply jsstring_eqb_eq in H.
  now rewrite H.
Qed.

Section ParserOnMarkers.

Variable parseFloat : jsstring -> Number.
Variable output : jsstring.

(** Balanced pairs are read into periods, whatever follows them. *)
Lemma period_loop_pairs (pairs : list (jsstring * jsstring)) :
  forall periodList (rest : list marker),
    period_loop parseFloat output None periodList (markers_of pairs ++ rest)
    = period_loop parseFloat output None
        (periodList ++ periods_of parseFloat pairs) rest.
Proof.
  induction pairs as [|[a b] pairs IH]; intros periodList rest.
  - cbn. now rewrite app_nil_r.
  - cbn [markers_of flat_map app periods_of map fst snd].
    cbn [period_loop].
    change (jsstring_eqb (js "start") (js "start")) with true.
    change (jsstring_eqb (js "end") (js "end")) with true.
    cbn [negb]. fold (markers_of pairs). rewrite IH.
    fold (periods_of parseFloat pairs). now rewrite <- app_assoc.
Qed.

(** The loop stops with a parse error at the first marker out of turn.
    [n] counts the unmatched starts of the markers already read: one
    when [startPosition] holds a number, none when it is [null]. *)
Lemma period_loop_throws (ms : list marker) :
  forall (n : nat) startPosition periodList,
    (n = 0%nat /\ startPosition = None
     \/ n = 1%nat /\ exists x, startPosition = Some x) ->
    (exists before m after,
        ms = before ++ m :: after
        /\ ((is_end m = true /\ unmatched_starts n before = 0%nat)
            \/ (is_start m = true
                /\ (0 < unmatched_starts n before)%nat))) ->
    is_parse_error output
      (period_loop parseFloat output startPosition periodList ms).
Proof.
  induction ms as [|[type positionStr] ms IH];
    intros n startPosition periodList St (before & m & after & E & V).
  - destruct before; discriminate.
  - cbn [period_loop].
    destruct St as [[-> ->] | [-> [x ->]]].
    + (* no start is waiting *)
      destruct (jsstring_eqb type (js "start")) eqn:T; cbn [negb].
      * destruct before as [|b before]; cbn in E; injection E as <- ->.
        -- exfalso. destruct V as [[V _] | [_ V]].
           ++ apply is_end_not_start in V. unfold is_start in V.
              cbn [fst] in V. congruence.
           ++ cbn in V. lia.
        -- apply (IH 1%nat); [right; eauto|].
           exists before, m, after. split; [reflexivity|].
           cbn [unmatched_starts] in V. unfold is_start at 1 3 in V.
           cbn [fst] in V. rewrite T in V. exact V.
      * now left.
    + (* a start is waiting *)
      destruct (jsstring_eqb type (js "end")) eqn:T; cbn [negb].
      * assert (T' : is_start (type, positionStr) = false)
          by now apply is_end_not_start.
        destruct before as [|b before]; cbn in E; injection E as <- ->.
        -- exfalso. destruct V as [[_ V] | [V _]].
           ++ cbn in V. lia.
           ++ congruence.
        -- apply (IH 0%nat); [left; auto|].
           exists before, m, after. split; [reflexivity|].
           cbn [unmatched_starts] in V. rewrite T' in V. exact V.
      * now right.
Qed.

End ParserOnMarkers.

(** C4: when the markers of a diagnostic text, in the order of the text,
    break strict alternation (an end where no start is unmatched, or a
    start where one still is), the parser throws one of its two parse
    errors and returns no list. *)
Theorem parser_rejects_broken_alternation
  (parseFloat : jsstring -> Number) (output : jsstring) :
  violates_alternation (silencedetect_matchAll output) ->
  is_parse_error output
    (getSilentPeriodListFromSilenceDetectOutput parseFloat output).
Proof.
  intros V. unfold getSilentPeriodListFromSilenceDetectOutput.
  apply (period_loop_throws parseFloat output _ 0%nat); [left; auto|].
  exact V.
Qed.

(** C5: when the markers of a diagnostic text are balanced pairs followed
    by one last start without an end, the parser returns the periods of the
    pairs and nothing for the last start. *)
Theorem parser_drops_trailing_start
  (parseFloat : jsstring -> Number) (output : jsstring)
  (pairs : list (jsstring * jsstring)) (last_start : jsstring) :
  silencedetect_matchAll output
  = markers_of pairs ++ [(js "start", last_start)] ->
  getSilentPeriodListFromSilenceDetectOutput parseFloat output
  = Ok (periods_of parseFloat pairs).
Proof.
  intros E. unfold getSilentPeriodListFromSilenceDetectOutput.
  rewrite E, period_loop_pairs. reflexivity.
Qed.

(** ** The marker pattern on rendered text *)

Lemma digit_is_digit (d : digit) : is_digit (digit_code d) = true.
Proof. now destruct d. Qed.

Lemma digit_not_space (d : digit) : is_space (digit_code d) = false.
Proof. now destruct d. Qed.

(** A greedy class takes a run of digits whole and stops at the first
    character outside the class. *)
Lemma span_digits (ds : list digit) (c : N) (rest : jsstring) :
  is_digit c = false ->
  span is_digit (map digit_code ds ++ c :: rest)
  = (map digit_code ds, c :: rest).
Proof.
  intros Hc. induction ds as [|d ds IH]; cbn [map app span].
  - now rewrite Hc.
  - now rewrite digit_is_digit, IH.
Qed.

Lemma exec_numeral_text (x : numeral) (rest : jsstring) :
  exec_numeral (numeral_text x ++ 10%N :: rest)
  = Some (numeral_text x, 10%N :: rest).
Proof.
  unfold exec_numeral, numeral_text.
  destruct (fraction x) as [[d ds]|].
  - rewrite <- app_assoc. cbn [app].
    rewrite span_digits by reflexivity. cbn [map].
    change (N.eqb 46 46) with true. cbv iota.
    rewrite (span_digits (d :: ds)) by reflexivity. reflexivity.
  - rewrite app_nil_r, span_digits by reflexivity. reflexivity.
Qed.

Lemma span_space_numeral (x : numeral) (rest : jsstring) :
  span is_space (numeral_text x ++ rest) = ([], numeral_text x ++ rest).
Proof.
  unfold numeral_text. cbn [map app span]. now rewrite digit_not_space.
Qed.

Lemma span_space_before_numeral (x : numeral) (rest : jsstring) :
  snd (span is_space (32%N :: numeral_text x ++ rest))
  = numeral_text x ++ rest.
Proof.
  cbn [span]. change (is_space 32) with true. cbv iota.
  now rewrite span_space_numeral.
Qed.

(** The pattern on a marker line, up to its number: everything before the
    number is fixed text. *)
Lemma silencedetect_exec_prefix (kind : string) (tail : jsstring) :
  kind = "start"%string \/ kind = "end"%string ->
  silencedetect_exec
    (js "[silencedetect @ 0x55d0c8a1b2c0] silence_" ++ js kind ++ js ": "
       ++ tail)
  = bind_option (exec_numeral (snd (span is_space (32%N :: tail))))
      (fun m => let '(positionStr, r6) := m in
                Some (js kind, positionStr, r6)).
Proof. intros [-> | ->]; reflexivity. Qed.

(** The pattern matches a rendered marker line up to the end of its
    number and captures the kind and the text of the number. *)
Lemma silencedetect_exec_line (kind : string) (x : numeral)
  (rest : jsstring) :
  kind = "start"%string \/ kind = "end"%string ->
  silencedetect_exec (marker_line kind x ++ rest)
  = Some (js kind, numeral_text x, 10%N :: rest).
Proof.
  intros K. unfold marker_line. rewrite <- !app_assoc. cbn [app].
  rewrite (silencedetect_exec_prefix kind _ K).
  rewrite span_space_before_numeral, exec_numeral_text. reflexivity.
Qed.

(** ** Scanning for all matches *)

(** Stepping over the [length x] characters of a match. *)
Lemma matchAll_from_skip (x y : jsstring) : forall prev,
  matchAll_from prev (length x) (x ++ y)
  = matchAll_from (fold_left (fun _ c => Some c) x prev) 0 y.
Proof.
  induction x as [|c x IH]; intros prev; cbn [length app fold_left].
  - reflexivity.
  - cbn [matchAll_from]. apply IH.
Qed.

(** No match starts at a character other than the opening bracket. *)
Lemma matchAll_from_other (prev : option N) (c : N) (rest : jsstring) :
  N.eqb 91 c = false ->
  matchAll_from prev 0 (c :: rest) = matchAll_from (Some c) 0 rest.
Proof.
  intros Hc. cbn [matchAll_from].
  assert (E : silencedetect_exec (c :: rest) = None).
  { unfold silencedetect_exec.
    change (js "[silencedetect") with (91%N :: js "silencedetect").
    cbn [strip_prefix]. now rewrite Hc. }
  rewrite E. now destruct (at_line_start prev).
Qed.

(** A match at the start of a line is reported, and the search goes on
    behind it. *)
Lemma matchAll_from_match (prev : option N) (c : N)
  (matched rest type positionStr : jsstring) :
  at_line_start prev = true ->
  silencedetect_exec (c :: matched ++ rest) = Some (type, positionStr, rest) ->
  matchAll_from prev 0 (c :: matched ++ rest)
  = (type, positionStr)
      :: matchAll_from (fold_left (fun _ c => Some c) matched (Some c)) 0 rest.
Proof.
  intros Hp He. cbn [matchAll_from]. rewrite Hp, He.
  rewrite length_app, Nat.add_sub. now rewrite matchAll_from_skip.
Qed.

Lemma matchAll_from_line (prev : option N) (kind : string) (x : numeral)
  (rest : jsstring) :
  at_line_start prev = true ->
  kind = "start"%string \/ kind = "end"%string ->
  matchAll_from prev 0 (marker_line kind x ++ rest)
  = (js kind, numeral_text x) :: matchAll_from (Some 10%N) 0 rest.
Proof.
  intros Hp K.
  pose proof (silencedetect_exec_line kind x rest K) as He.
  assert (S : exists matched,
             marker_line kind x ++ rest = 91%N :: matched ++ 10%N :: rest).
  { unfold marker_line. rewrite <- !app_assoc.
    change (js "[silencedetect @ 0x55d0c8a1b2c0] silence_")
      with (91%N :: js "silencedetect @ 0x55d0c8a1b2c0] silence_").
    cbn [app].
    exists (js "silencedetect @ 0x55d0c8a1b2c0] silence_" ++ js kind
              ++ js ": " ++ numeral_text x).
    now rewrite <- !app_assoc. }
  destruct S as [matched S]. rewrite S in He |- *.
  rewrite (matchAll_from_match prev 91 matched _ _ _ Hp He).
  now rewrite matchAll_from_other.
Qed.

(** The number texts of a list of intervals. *)
Lemma matchAll_render (intervals : list (numeral * numeral)) :
  forall prev, at_line_start prev = true ->
    matchAll_from prev 0 (render_silences intervals)
    = markers_of
        (map (fun i => (numeral_text (fst i), numeral_text (snd i)))
           intervals).
Proof.
  induction intervals as [|[s e] rest IH]; intros prev Hp.
  - reflexivity.
  - cbn [render_silences map markers_of flat_map fst snd app].
    rewrite (matchAll_from_line prev "start" s _ Hp) by now left.
    rewrite (matchAll_from_line (Some 10%N) "end" e _ eq_refl) by now right.
    rewrite (IH (Some 10%N) eq_refl). reflexivity.
Qed.

(** C6: the parser reads a text rendered from a list of intervals, one
    start line and one end line for each in order, back into that list of
    intervals, in the same order. *)
Theorem parser_round_trip (parseFloat : jsstring -> Number)
  (intervals : list (numeral * numeral)) :
  getSilentPeriodListFromSilenceDetectOutput parseFloat
    (render_silences intervals)
  = Ok (map (fun i => (parseFloat (numeral_text (fst i)),
                       parseFloat (numeral_text (snd i)))) intervals).
Proof.
  unfold getSilentPeriodListFromSilenceDetectOutput, silencedetect_matchAll.
  rewrite (matchAll_render intervals None eq_refl).
  rewrite <- (app_nil_r (markers_of _)), period_loop_pairs.
  cbn [period_loop app]. unfold periods_of. rewrite map_map. reflexivity.
Qed.

(** ** Text without marker lines *)

Lemma planner_keeps_all_without_silence (D : Number) :
  is_double D ->
  minimumNotSilentDuration < D ->
  planNotSilentPeriodList [] D = [(0, D)].
Proof.
  intros HD H. unfold planNotSilentPeriodList. cbn [fold_left].
  assert (G : Number_gt (Number_sub D 0) minimumNotSilentDuration = true).
  { apply Number_gt_spec. unfold Number_sub.
    rewrite (round64_compat (D - 0) D) by lra.
    unfold is_double in HD. lra. }
  now rewrite G.
Qed.

(** C10: for a text without any marker line the parser returns the empty
    list; for a duration above the minimum keep duration the planner then
    emits the one keep interval [(0, D)], which the padding pass leaves as
    it is.  The duration is a double, as every number of the program. *)
Theorem no_silence_keeps_whole_video (parseFloat : jsstring -> Number)
  (output : jsstring) (D : Number) :
  silencedetect_matchAll output = [] ->
  is_double D ->
  minimumNotSilentDuration < D ->
  getSilentPeriodListFromSilenceDetectOutput parseFloat output = Ok []
  /\ planNotSilentPeriodList [] D = [(0, D)]
  /\ adjustNotSilentPeriodList (planNotSilentPeriodList [] D) = [(0, D)].
Proof.
  intros M HD H. split.
  - unfold getSilentPeriodListFromSilenceDetectOutput. now rewrite M.
  - rewrite (planner_keeps_all_without_silence D HD H). split; reflexivity.
Qed.

(** ** What the marker pattern can match *)

(** Capture 1 of a match is ["start"] or ["end"]. *)
Lemma silencedetect_exec_kind (l type positionStr rest : jsstring) :
  silencedetect_exec l = Some (type, positionStr, rest) ->
  type = js "start" \/ type = js "end".
Proof.
  unfold silencedetect_exec, bind_option.
  destruct (strip_prefix (js "[silencedetect") l) as [r1|]; [|discriminate].
  destruct (strip_prefix (js "]") _) as [r2|]; [|discriminate].
  destruct (strip_prefix (js "silence_") _) as [r3|]; [|discriminate].
  destruct (exec_start_or_end r3) as [[kind r4]|] eqn:K; [|discriminate].
  destruct (strip_prefix (js ":") _) as [r5|]; [|discriminate].
  destruct (exec_numeral _) as [[p r6]|]; [|discriminate].
  intros E. injection E as <- _ _.
  unfold exec_start_or_end in K.
  destruct (strip_prefix (js "start") r3).
  - injection K as <- _. now left.
  - destruct (strip_prefix (js "end") r3); [|discriminate].
    injection K as <- _. now right.
Qed.

Lemma matchAll_from_kinds (l : jsstring) : forall prev skip,
  Forall (fun m : marker => is_start m = true \/ is_end m = true)
    (matchAll_from prev skip l).
Proof.
  induction l as [|c t IH]; intros prev skip; cbn [matchAll_from].
  - constructor.
  - destruct skip; [|apply IH].
    destruct (at_line_start prev); [|apply IH].
    destruct (silencedetect_exec (c :: t)) as [[[type p] rest]|] eqn:E;
      [|apply IH].
    constructor; [|apply IH].
    apply silencedetect_exec_kind in E. unfold is_start, is_end. cbn [fst].
    destruct E as [-> | ->]; [left | right]; reflexivity.
Qed.

(** A text in which the opening of a marker line never occurs has no
    marker. *)
Lemma matchAll_from_without_opening (l : jsstring) : forall prev skip,
  includes (js "[silencedetect") l = false ->
  matchAll_from prev skip l = [].
Proof.
  induction l as [|c t IH]; intros prev skip H; cbn [matchAll_from].
  - reflexivity.
  - cbn [includes] in H.
    destruct (strip_prefix (js "[silencedetect") (c :: t)) eqn:P;
      [discriminate|].
    destruct skip; [|now apply IH].
    assert (E : silencedetect_exec (c :: t) = None).
    { unfold silencedetect_exec. now rewrite P. }
    rewrite E. destruct (at_line_start prev); now apply IH.
Qed.

Section ParserAccepts.

Variable parseFloat : jsstring -> Number.
Variable output : jsstring.

(** The loop returns a list when no marker stands out of turn: with
    [period_loop_throws], the parse errors are exactly the violations of
    alternation. *)
Lemma period_loop_returns (ms : list marker) :
  forall (n : nat) startPosition periodList,
    Forall (fun m : marker => is_start m = true \/ is_end m = true) ms ->
    (n = 0%nat /\ startPosition = None
     \/ n = 1%nat /\ exists x, startPosition = Some x) ->
    ~ (exists before m after,
          ms = before ++ m :: after
          /\ ((is_end m = true /\ unmatched_starts n before = 0%nat)
              \/ (is_start m = true
                  /\ (0 < unmatched_starts n before)%nat))) ->
    exists periods,
      period_loop parseFloat output startPosition periodList ms = Ok periods.
Proof.
  induction ms as [|[type positionStr] ms IH];
    intros n startPosition periodList K St NV.
  - cbn. eauto.
  - inversion K as [|m0 ms0 Km Kms]; subst. cbn [period_loop].
    unfold is_start, is_end in Km. cbn [fst] in Km.
    destruct St as [[-> ->] | [-> [x ->]]].
    + destruct (jsstring_eqb type (js "start")) eqn:T; cbn [negb].
      * apply (IH 1%nat); [assumption | right; eauto|].
        intros (before & m & after & -> & V). apply NV.
        exists ((type, positionStr) :: before), m, after.
        split; [reflexivity|]. cbn [unmatched_starts].
        unfold is_start at 1 3. cbn [fst]. now rewrite T.
      * exfalso. apply NV. exists [], (type, positionStr), ms.
        split; [reflexivity|]. left. split; [|reflexivity].
        unfold is_end. cbn [fst]. destruct Km; [discriminate | assumption].
    + destruct (jsstring_eqb type (js "end")) eqn:T; cbn [negb].
      * apply (IH 0%nat); [assumption | left; auto|].
        intros (before & m & after & -> & V). apply NV.
        exists ((type, positionStr) :: before), m, after.
        split; [reflexivity|]. cbn [unmatched_starts].
        now rewrite (is_end_not_start (type, positionStr) T).
      * exfalso. apply NV. exists [], (type, positionStr), ms.
        split; [reflexivity|]. right. split; [|cbn; lia].
        unfold is_start. cbn [fst]. destruct Km; [assumption | discriminate].
Qed.

Lemma parser_accepts_alternation :
  ~ violates_alternation (silencedetect_matchAll output) ->
  exists periods,
    getSilentPeriodListFromSilenceDetectOutput parseFloat output = Ok periods.
Proof.
  intros NV. unfold getSilentPeriodListFromSilenceDetectOutput.
  apply (period_loop_returns _ 0%nat); [|left; auto | exact NV].
  apply matchAll_from_kinds.
Qed.

End ParserAccepts.

(** ** The dispatcher *)

(** [main], as the program text has it. *)
Lemma main_as_written (host : Host) (arguments : list jsstring) :
  main host arguments
  = if mode_is (js "file") arguments then
      removeSilentFromVideoFile host
        (nth_error (tl arguments) 0) (nth_error (tl arguments) 1)
    else if mode_is (js "dir") arguments then
      removeSilentFromVideoDirectory host
        (nth_error (tl arguments) 0) (nth_error (tl arguments) 1)
    else
      perform
        (ConsoleError (js "Unknown mode, fallback file mode: ")
           (logged_mode arguments))
        (fun _ => Ok tt) ;;;
      main host (js "file" :: arguments).
Proof.
  rewrite main_equation_1.
  set (dir_mode :=
         removeSilentFromVideoDirectory host
           (nth_error (tl arguments) 0) (nth_error (tl arguments) 1)).
  set (fallback :=
         perform
           (ConsoleError (js "Unknown mode, fallback file mode: ")
              (logged_mode arguments))
           (fun _ => Ok tt) ;;;
         main host (js "file" :: arguments)).
  assert (inner : forall (r : {b : bool | mode_is (js "dir") arguments = b})
                    (not_file : mode_is (js "file") arguments = false),
             main_unfold_clause_1_clause_2 host arguments r not_file
             = if proj1_sig r then dir_mode else fallback).
  { intros [[|] not_dir] not_file; reflexivity. }
  assert (outer : forall r : {b : bool | mode_is (js "file") arguments = b},
             main_unfold_clause_1 host arguments r
             = if proj1_sig r then
                 removeSilentFromVideoFile host
                   (nth_error (tl arguments) 0) (nth_error (tl arguments) 1)
               else if mode_is (js "dir") arguments then dir_mode
               else fallback).
  { intros [[|] not_file]; cbn [proj1_sig]; [reflexivity|].
    unfold main_unfold_clause_1.
    apply (inner (inspect (mode_is (js "dir") arguments))). }
  apply (outer (inspect (mode_is (js "file") arguments))).
Qed.

Lemma mode_is_other (name mode : jsstring) (args : list jsstring) :
  mode <> name -> mode_is name (mode :: args) = false.
Proof.
  intros H. cbn [mode_is]. destruct (jsstring_eqb mode name) eqn:E.
  - now apply jsstring_eqb_eq in E.
  - reflexivity.
Qed.

(** C9: for a mode other than ['file'] and ['dir'], [main] logs a warning
    and calls itself in file mode on the whole original argument list, so
    that the file operation receives the mode token as its input path and
    the first further argument as its output path. *)
Theorem unknown_mode_falls_back_to_file (host : Host) (mode : jsstring)
  (args : list jsstring) (before : trace) :
  mode <> js "file" -> mode <> js "dir" ->
  main host (mode :: args) before
  = main host (js "file" :: mode :: args)
      (before ++ [ConsoleError (js "Unknown mode, fallback file mode: ")
                    (LStr mode)])
  /\ main host (js "file" :: mode :: args)
     = removeSilentFromVideoFile host (Some mode) (nth_error args 0).
Proof.
  intros not_file not_dir. split.
  - rewrite main_as_written.
    rewrite (mode_is_other _ _ _ not_file), (mode_is_other _ _ _ not_dir).
    reflexivity.
  - rewrite main_as_written. reflexivity.
Qed.

Lemma unknown_mode_falls_back_to_file_witness :
  js "movie.mp4" <> js "file"
  /\ js "movie.mp4" <> js "dir"
  /\ main sample_host [js "movie.mp4"; js "out.mp4"] []
     = removeSilentFromVideoFile sample_host
         (Some (js "movie.mp4")) (Some (js "out.mp4"))
         [ConsoleError (js "Unknown mode, fallback file mode: ")
            (LStr (js "movie.mp4"))].
Proof.
  assert (not_file : js "movie.mp4" <> js "file") by discriminate.
  assert (not_dir : js "movie.mp4" <> js "dir") by discriminate.
  split; [exact not_file|]. split; [exact not_dir|].
  destruct (unknown_mode_falls_back_to_file sample_host (js "movie.mp4")
              [js "out.mp4"] [] not_file not_dir) as [E1 E2].
  rewrite E1, E2. reflexivity.
Defined.

(** ** The parser theorems at concrete texts *)

Lemma parser_rejects_broken_alternation_witness :
  violates_alternation (silencedetect_matchAll end_first_text)
  /\ is_parse_error end_first_text
       (getSilentPeriodListFromSilenceDetectOutput decimal_parseFloat
          end_first_text).
Proof.
  assert (V : violates_alternation (silencedetect_matchAll end_first_text)).
  { exists [], (js "end", js "3.5"), []. split; [reflexivity|].
    left. split; reflexivity. }
  split; [exact V|].
  exact (parser_rejects_broken_alternation decimal_parseFloat
           end_first_text V).
Defined.

Lemma parser_drops_trailing_start_witness :
  silencedetect_matchAll trailing_start_text
  = markers_of [(js "2", js "3.5")] ++ [(js "start", js "9.25")]
  /\ getSilentPeriodListFromSilenceDetectOutput decimal_parseFloat
       trailing_start_text
     = Ok [(2, 7 # 2)].
Proof.
  split; [reflexivity|].
  exact (parser_drops_trailing_start decimal_parseFloat trailing_start_text
           [(js "2", js "3.5")] (js "9.25") eq_refl).
Defined.

Lemma no_silence_keeps_whole_video_witness :
  silencedetect_matchAll no_marker_text = []
  /\ is_double 5
  /\ minimumNotSilentDuration < 5
  /\ getSilentPeriodListFromSilenceDetectOutput decimal_parseFloat
       no_marker_text = Ok []
  /\ planNotSilentPeriodList [] 5 = [(0, 5)]
  /\ adjustNotSilentPeriodList (planNotSilentPeriodList [] 5) = [(0, 5)].
Proof.
  assert (HD : is_double 5) by (vm_compute; reflexivity).
  split; [reflexivity|]. split; [exact HD|]. split; [reflexivity|].
  exact (no_silence_keeps_whole_video decimal_parseFloat no_marker_text 5
           eq_refl HD eq_refl).
Defined.

(** ** Single-file processing without a keep interval *)

(** C8: when the analysis of a file succeeds and the planner produces no
    keep interval, single-file processing performs the three analysis
    invocations and nothing else (no directory is made, nothing is
    extracted, listed, concatenated or removed, so no output file is
    written) and returns normally. *)
Theorem no_keep_interval_no_output (host : Host) (videoPath : jsstring)
  (outputVideoPath : option jsstring) (before : trace)
  (videoDurationStr volumeDetectOutput silenceDetectOutput : jsstring)
  (meanVolume : Number) (silentPeriodList : list period) :
  ffprobe_answer host before (duration_args videoPath)
  = Ok videoDurationStr ->
  ffmpeg_answer host (before ++ [Ffprobe (duration_args videoPath)])
    (volumedetect_args videoPath)
  = Ok volumeDetectOutput ->
  getMinValumeFromVolumeDetectOutput (parseFloat host) volumeDetectOutput
  = Ok meanVolume ->
  ffmpeg_answer host
    (before ++ [Ffprobe (duration_args videoPath);
                Ffmpeg (volumedetect_args videoPath)])
    (silencedetect_args host videoPath (Number_sub meanVolume 0)
       (Number_add minimumSilentDuration remainingSilentDuration))
  = Ok silenceDetectOutput ->
  getSilentPeriodListFromSilenceDetectOutput (parseFloat host)
    silenceDetectOutput
  = Ok silentPeriodList ->
  planNotSilentPeriodList silentPeriodList
    (parseFloat host videoDurationStr) = [] ->
  removeSilentFromVideoFile host (Some videoPath) outputVideoPath before
  = (before ++ [Ffprobe (duration_args videoPath);
                Ffmpeg (volumedetect_args videoPath);
                Ffmpeg (silencedetect_args host videoPath (Number_sub meanVolume 0)
                          (Number_add minimumSilentDuration remainingSilentDuration))],
     Ok tt).
Proof.
  intros Hprobe Hvolume Hmean Hdetect Hparse Hplan.
  unfold removeSilentFromVideoFile, path_argument, execFfprobe, execFfmpeg.
  unfold bind at 1. unfold ret at 1.
  unfold bind at 1. unfold perform at 1. rewrite Hprobe.
  unfold bind at 1. unfold perform at 1. rewrite <- app_assoc. cbn [app].
  rewrite Hvolume.
  unfold bind at 1. unfold lift at 1. rewrite Hmean.
  unfold bind at 1. unfold perform at 1. rewrite <- app_assoc. cbn [app].
  rewrite Hdetect.
  unfold bind at 1. unfold lift at 1. rewrite Hparse.
  rewrite Hplan. reflexivity.
Qed.

Lemma no_keep_interval_no_output_witness :
  planNotSilentPeriodList [] (decimal_parseFloat (js "0.5")) = []
  /\ removeSilentFromVideoFile sample_host (Some (js "movie.mp4")) None []
     = ([Ffprobe (duration_args (js "movie.mp4"));
         Ffmpeg (volumedetect_args (js "movie.mp4"));
         Ffmpeg (silencedetect_args sample_host (js "movie.mp4")
                   (Number_sub (-47 # 2) 0)
                   (Number_add minimumSilentDuration remainingSilentDuration))],
        Ok tt).
Proof.
  split; [reflexivity|].
  exact (no_keep_interval_no_output sample_host (js "movie.mp4") None []
           (js "0.5")
           (js "[Parsed_volumedetect_0 @ 0x55d0c8a1b2c0] mean_volume: -23.5 dB")
           (js "[Parsed_volumedetect_0 @ 0x55d0c8a1b2c0] mean_volume: -23.5 dB")
           (-47 # 2) []
           eq_refl eq_refl eq_refl eq_refl eq_refl eq_refl).
Defined.

(** ** The listing file *)

(** A path with no quote is written as it is, and the first quote of a
    path is escaped as the listing format asks. *)
Lemma replace_quote_no_quote (filePath : jsstring) :
  Forall (fun c => N.eqb c 39 = false) filePath ->
  replace_quote filePath = escape_quotes filePath.
Proof.
  induction 1 as [|c t Hc Ht IH]; cbn [replace_quote escape_quotes].
  - reflexivity.
  - now rewrite Hc, IH.
Qed.

Lemma replace_quote_first (before after : jsstring) :
  Forall (fun c => N.eqb c 39 = false) before ->
  replace_quote (before ++ 39%N :: after) = before ++ js "'\''" ++ after.
Proof.
  induction 1 as [|c t Hc Ht IH]; cbn [app replace_quote].
  - reflexivity.
  - now rewrite Hc, IH.
Qed.

(** The listing of the program is the listing of the format as long as no
    path holds a quote. *)
Lemma listing_without_quotes (paths : list jsstring) :
  Forall (Forall (fun c => N.eqb c 39 = false)) paths ->
  concatFileContent paths = listing_of paths.
Proof.
  intros H. unfold concatFileContent, listing_of, concat_line. f_equal.
  induction H as [|p rest Hp Hrest IH]; cbn [map]; [reflexivity|].
  now rewrite IH, (replace_quote_no_quote p Hp).
Qed.

(** C7, at the chunk path [it's bob's.mp4.tmp/0-2.mp4]: the listing escapes
    the first quote of the path and leaves the second one as it is, where
    the claim has both replaced. *)
Theorem listing_escapes_first_quote_only :
  concatFileContent [js "it's bob's.mp4.tmp/0-2.mp4"]
  = js "file 'it'\''s bob's.mp4.tmp/0-2.mp4'"
  /\ listing_of [js "it's bob's.mp4.tmp/0-2.mp4"]
     = js "file 'it'\''s bob'\''s.mp4.tmp/0-2.mp4'"
  /\ concatFileContent [js "it's bob's.mp4.tmp/0-2.mp4"]
     <> listing_of [js "it's bob's.mp4.tmp/0-2.mp4"].
Proof.
  split; [reflexivity | split; [reflexivity | discriminate]].
Qed.

(** * Further properties *)

(** ** The planner and the padding pass on every input *)

(** X1: every keep interval of the planner is longer than the minimum keep
    duration, whatever the silence intervals and the duration are. *)
Theorem plan_intervals_longer_than_minimum (silences : list period)
  (D : Number) :
  Forall (fun k => minimumNotSilentDuration < snd k - fst k)
    (planNotSilentPeriodList silences D).
Proof.
  rewrite plan_is_filter.
  apply Forall_forall. intros k Hk. apply filter_In in Hk.
  destruct Hk as [_ Hk]. now apply long_in_double_exact.
Qed.

Lemma gap_spans_endpoints (silences : list period) (D : Number) :
  forall cursor g,
    In g (gap_spans cursor silences D) ->
    (fst g = cursor \/ exists p, In p silences /\ snd p = fst g)
    /\ (snd g = D \/ exists p, In p silences /\ fst p = snd g).
Proof.
  induction silences as [|[s e] rest IH]; intros cursor g H; cbn in H.
  - destruct H as [<- | []]. cbn. auto.
  - destruct H as [<- | H].
    + cbn [fst snd]. split; [now left|].
      right. exists (s, e). split; [now left | reflexivity].
    + destruct (IH e g H) as [[A | (p & Hp & A)] [B | (q & Hq & B)]].
      * split; [right; exists (s, e); split; [now left | exact (eq_sym A)]
               | now left].
      * split; [right; exists (s, e); split; [now left | exact (eq_sym A)]
               | right; exists q; split; [now right | exact B]].
      * split; [right; exists p; split; [now right | exact A] | now left].
      * split; [right; exists p; split; [now right | exact A]
               | right; exists q; split; [now right | exact B]].
Qed.

(** X2: a keep interval starts at 0 or where a silence ends, and ends where
    a silence starts or at the duration: the planner never cuts inside a
    gap. *)
Theorem plan_intervals_between_silences (silences : list period)
  (D : Number) (k : period) :
  In k (planNotSilentPeriodList silences D) ->
  (fst k = 0 \/ exists p, In p silences /\ snd p = fst k)
  /\ (snd k = D \/ exists p, In p silences /\ fst p = snd k).
Proof.
  rewrite plan_is_filter. intros H.
  apply filter_In in H. destruct H as [H _].
  now apply gap_spans_endpoints in H.
Qed.

Lemma plan_intervals_between_silences_witness :
  In (3, 10) (planNotSilentPeriodList [(2, 3)] 10)
  /\ (exists p, In p [(2, 3)] /\ snd p = 3).
Proof.
  assert (H : In (3, 10) (planNotSilentPeriodList [(2, 3)] 10))
    by (right; left; reflexivity).
  split; [exact H|].
  destruct (plan_intervals_between_silences [(2, 3)] 10 (3, 10) H)
    as [[A | A] _]; [discriminate A | exact A].
Defined.

Lemma gap_spans_length (silences : list period) (D : Number) :
  forall cursor, length (gap_spans cursor silences D) = S (length silences).
Proof.
  induction silences as [|[s e] rest IH]; intros cursor; cbn.
  - reflexivity.
  - now rewrite IH.
Qed.

(** X3: [n] silence intervals give at most [n + 1] keep intervals. *)
Theorem plan_length_bound (silences : list period) (D : Number) :
  (length (planNotSilentPeriodList silences D) <= S (length silences))%nat.
Proof.
  rewrite plan_is_filter.
  rewrite <- (gap_spans_length silences D 0). apply filter_length_le.
Qed.

(** ** Padding after planning *)

Lemma half_padding_nonneg : 0 <= half_padding.
Proof. vm_compute. discriminate. Qed.

(** The half of the double written [0.4] is a double: halving loses
    nothing. *)
Lemma half_padding_twice :
  half_padding + half_padding == remainingSilentDuration.
Proof. vm_compute. reflexivity. Qed.

Lemma is_double_0 : is_double 0.
Proof. vm_compute. reflexivity. Qed.

Lemma round64_le_double (x y : Number) :
  is_double y -> x <= y -> round64 x <= y.
Proof.
  intros Hy H. apply round64_mono in H. unfold is_double in Hy. lra.
Qed.

Lemma round64_ge_double (x y : Number) :
  is_double x -> x <= y -> x <= round64 y.
Proof.
  intros Hx H. apply round64_mono in H. unfold is_double in Hx. lra.
Qed.

Lemma adjust_from_cons (len i : nat) (p : period) (rest : list period) :
  adjust_from len i (p :: rest)
  = padded len i p :: adjust_from len (S i) rest.
Proof. destruct p. reflexivity. Qed.

(** A padded start is the start or the double nearest to the start moved
    by half the padding, which is not later; likewise for the end. *)
Lemma padded_start (n i : nat) (p : period) :
  is_double (fst p) ->
  round64 (fst p - half_padding) <= fst (padded n i p)
  /\ fst (padded n i p) <= fst p.
Proof.
  intros Hp. pose proof half_padding_nonneg as N.
  assert (R : round64 (fst p - half_padding) <= fst p)
    by (apply round64_le_double; [exact Hp | lra]).
  unfold padded. cbn [fst]. fold half_padding. unfold Number_sub.
  destruct (Nat.eqb i 0); lra.
Qed.

Lemma padded_end (n i : nat) (p : period) :
  is_double (snd p) ->
  snd p <= snd (padded n i p)
  /\ snd (padded n i p) <= round64 (snd p + half_padding).
Proof.
  intros Hp. pose proof half_padding_nonneg as N.
  assert (R : snd p <= round64 (snd p + half_padding))
    by (apply round64_ge_double; [exact Hp | lra]).
  unfold padded. cbn [snd]. fold half_padding. unfold Number_add.
  destruct (Nat.eqb i (n - 1)); lra.
Qed.

Lemma adjust_from_Forall (P Q : period -> Prop) (len : nat) :
  (forall p i, P p -> Q (padded len i p)) ->
  forall l i, Forall P l -> Forall Q (adjust_from len i l).
Proof.
  intros PQ l. induction l as [|p rest IH]; intros i H.
  - constructor.
  - rewrite adjust_from_cons. inversion H; subst.
    constructor; [now apply PQ | now apply IH].
Qed.

(** Two boundaries one padding apart do not cross when each is moved by
    half the padding and rounded. *)
Lemma moved_boundaries_in_order (x y : Number) :
  x + remainingSilentDuration <= y ->
  round64 (x + half_padding) <= round64 (y - half_padding).
Proof.
  intros H. apply round64_mono. pose proof half_padding_twice. lra.
Qed.

(** Intervals at least one padding apart stay in order when padded. *)
Lemma adjust_from_sorted (len : nat) (l : list period) : forall i,
  StronglySorted (fun p q => snd p + remainingSilentDuration <= fst q) l ->
  Forall doubles l ->
  StronglySorted (fun p q => snd p <= fst q) (adjust_from len i l).
Proof.
  induction l as [|p rest IH]; intros i H B.
  - constructor.
  - rewrite adjust_from_cons. inversion H as [|? ? Hrest Hp]; subst.
    inversion B as [|? ? Bp Brest]; subst.
    constructor; [now apply IH|].
    apply (adjust_from_Forall
             (fun q => snd p + remainingSilentDuration <= fst q
                       /\ doubles q));
      [|now apply Forall_and].
    intros q j [Hq Bq].
    pose proof (padded_end len i p (proj2 Bp)).
    pose proof (padded_start len j q (proj1 Bq)).
    pose proof (moved_boundaries_in_order _ _ Hq). lra.
Qed.

Lemma adjust_from_upper (hi : Number) (len : nat) (l : list period) :
  is_double hi ->
  forall i,
    len = (i + length l)%nat ->
    StronglySorted (fun p q => snd p + remainingSilentDuration <= fst q) l ->
    Forall (fun p => fst p < snd p /\ snd p <= hi) l ->
    Forall doubles l ->
    Forall (fun p => snd p <= hi) (adjust_from len i l).
Proof.
  intros Hhi. induction l as [|p rest IH]; intros i Hlen S B Dl.
  - constructor.
  - rewrite adjust_from_cons.
    inversion S as [|? ? Srest Sp]; subst.
    inversion B as [|? ? Bp Brest]; subst.
    inversion Dl as [|? ? Dp Drest]; subst.
    constructor.
    + destruct rest as [|q rest].
      * unfold padded. cbn [snd length] in *.
        replace (i + 1 - 1)%nat with i by lia.
        rewrite Nat.eqb_refl. tauto.
      * inversion Sp; subst. inversion Brest; subst.
        pose proof (padded_end (i + length (p :: q :: rest)) i p
                      (proj2 Dp)) as [_ E].
        assert (R : round64 (snd p + half_padding) <= hi).
        { apply round64_le_double; [exact Hhi|].
          pose proof half_padding_twice. pose proof half_padding_nonneg.
          cbn beta in *. lra. }
        lra.
    + apply IH; [cbn [length]; lia | assumption | assumption | assumption].
Qed.

(** Properly spaced keep intervals inside [[lo, hi]] stay in order, do not
    overlap and stay inside [[lo, hi]] when padded. *)
Lemma adjust_spaced (lo hi : Number) (l : list period) :
  is_double lo -> is_double hi ->
  StronglySorted (fun p q => snd p + remainingSilentDuration <= fst q) l ->
  Forall (fun p => fst p < snd p) l ->
  Forall (fun p => lo <= fst p /\ snd p <= hi) l ->
  Forall doubles l ->
  sorted_non_overlapping (adjustNotSilentPeriodList l)
  /\ Forall (fun k => lo <= fst k /\ snd k <= hi)
       (adjustNotSilentPeriodList l).
Proof.
  intros Hlo Hhi S P B Dl. unfold adjustNotSilentPeriodList.
  assert (U : Forall (fun p => snd p <= hi)
                (adjust_from (length l) 0 l)).
  { apply adjust_from_upper; [exact Hhi | reflexivity | exact S | | exact Dl].
    rewrite Forall_forall in *. intros p Hp.
    split; [now apply P | now apply B]. }
  assert (L : Forall (fun p => lo <= fst p) (adjust_from (length l) 0 l)).
  { destruct l as [|p rest]; [constructor|].
    rewrite adjust_from_cons.
    inversion S as [|? ? _ Sp]; subst. inversion B as [|? ? Bp _]; subst.
    inversion P as [|? ? Pp _]; subst.
    inversion Dl as [|? ? _ Drest]; subst.
    constructor; [unfold padded; cbn; tauto|].
    apply (adjust_from_Forall
             (fun q => snd p + remainingSilentDuration <= fst q
                       /\ doubles q));
      [|now apply Forall_and].
    intros q j [Hq Bq].
    pose proof (padded_start (length (p :: rest)) j q (proj1 Bq)) as [E _].
    assert (R : lo <= round64 (fst q - half_padding)).
    { apply round64_ge_double; [exact Hlo|].
      pose proof half_padding_twice. pose proof half_padding_nonneg.
      cbn beta in *. lra. }
    lra. }
  split; [split|].
  - apply (adjust_from_Forall (fun p => fst p < snd p /\ doubles p));
      [|now apply Forall_and].
    intros p i [Hp Bp]. pose proof (padded_start (length l) i p (proj1 Bp)).
    pose proof (padded_end (length l) i p (proj2 Bp)). lra.
  - now apply adjust_from_sorted.
  - rewrite Forall_forall in *. intros k Hk.
    split; [now apply L | now apply U].
Qed.

Lemma silences_within_from (silences : list period) (D : Number) :
  forall lo, silences_within lo silences D -> silences_from lo silences.
Proof.
  induction silences as [|[s e] rest IH]; intros lo H; cbn in H |- *.
  - exact I.
  - destruct H as (H1 & H2 & H3). auto.
Qed.

(** The gaps between silences that each last longer than one padding are
    at least one padding apart. *)
Lemma gap_spans_spaced (silences : list period) (D : Number) :
  forall lo,
    silences_from lo silences ->
    Forall (fun p => remainingSilentDuration < snd p - fst p) silences ->
    StronglySorted (fun p q => snd p + remainingSilentDuration <= fst q)
      (gap_spans lo silences D).
Proof.
  induction silences as [|[s e] rest IH]; intros lo H L;
    cbn [silences_from gap_spans] in H |- *.
  - repeat constructor.
  - destruct H as (H1 & H2 & H3). inversion L as [|? ? Lp Lrest]; subst.
    constructor; [now apply IH|].
    eapply Forall_impl; [|apply gap_spans_starts, H3].
    cbn beta. intros g G.
    change (s + remainingSilentDuration <= fst g).
    change (remainingSilentDuration < e - s) in Lp. lra.
Qed.

(** The ends of the gaps are the cursor, ends of silences and the
    duration: doubles when these are. *)
Lemma gap_spans_doubles (silences : list period) (D : Number) :
  is_double D ->
  Forall doubles silences ->
  forall lo, is_double lo -> Forall doubles (gap_spans lo silences D).
Proof.
  intros HD. induction silences as [|[s e] rest IH]; intros B lo Hlo; cbn.
  - constructor; [split; assumption | constructor].
  - inversion B as [|? ? [Bs Be] Brest]; subst. cbn [fst snd] in *.
    constructor; [split; assumption|]. now apply IH.
Qed.

(** A silence from 2 to 2.4 is not long enough: the double [2.4] is below
    [2 + 0.4] (although that sum evaluates to [2.4]), and the two padded
    keep intervals overlap between 2.1999999999999997 and 2.2. *)
Lemma padding_overlaps_after_short_silence :
  Number_add 2 remainingSilentDuration = round64 (24 # 10)
  /\ round64 (24 # 10) - 2 < remainingSilentDuration
  /\ adjustNotSilentPeriodList
       (planNotSilentPeriodList [(2, round64 (24 # 10))] 10)
     = [(0, 2476979795053773 # 1125899906842624);
        (4953959590107545 # 2251799813685248, 10)]
  /\ (4953959590107545 # 2251799813685248)
     < (2476979795053773 # 1125899906842624).
Proof. repeat split; vm_compute; reflexivity. Qed.

(** X4: when the silence intervals are in order within [[0, D]], each
    lasts longer than the padding duration, and their ends and [D] are
    doubles, the padded keep intervals are still in time order, do not
    overlap, and lie within [[0, D]]. *)
Theorem padding_keeps_order_and_bounds (silences : list period)
  (D : Number) :
  silences_within 0 silences D ->
  Forall (fun p => remainingSilentDuration < snd p - fst p) silences ->
  Forall doubles silences ->
  is_double D ->
  sorted_non_overlapping
    (adjustNotSilentPeriodList (planNotSilentPeriodList silences D))
  /\ Forall (fun k => 0 <= fst k /\ snd k <= D)
       (adjustNotSilentPeriodList (planNotSilentPeriodList silences D)).
Proof.
  intros W L B HD. rewrite plan_is_filter.
  apply adjust_spaced; [exact is_double_0 | exact HD | | | |].
  - apply StronglySorted_filter_keeps, gap_spans_spaced; [|exact L].
    now apply (silences_within_from silences D).
  - apply Forall_forall. intros k Hk. apply filter_In in Hk.
    destruct Hk as [_ Hk]. apply long_in_double_exact in Hk.
    unfold minimumNotSilentDuration in Hk. lra.
  - apply Forall_filter_keeps.
    eapply Forall_impl; [|apply gap_spans_bounds, W].
    cbn beta. tauto.
  - apply Forall_filter_keeps.
    apply gap_spans_doubles; [exact HD | exact B | exact is_double_0].
Qed.

Lemma padding_keeps_order_and_bounds_witness :
  silences_within 0 [(2, 3); (5, 6)] 10
  /\ Forall (fun p => remainingSilentDuration < snd p - fst p)
       [(2, 3); (5, 6)]
  /\ Forall doubles [(2, 3); (5, 6)]
  /\ is_double 10
  /\ sorted_non_overlapping
       (adjustNotSilentPeriodList
          (planNotSilentPeriodList [(2, 3); (5, 6)] 10))
  /\ Forall (fun k => 0 <= fst k /\ snd k <= 10)
       (adjustNotSilentPeriodList
          (planNotSilentPeriodList [(2, 3); (5, 6)] 10)).
Proof.
  assert (W : silences_within 0 [(2, 3); (5, 6)] 10).
  { cbn. repeat split; discriminate. }
  assert (L : Forall (fun p => remainingSilentDuration < snd p - fst p)
                [(2, 3); (5, 6)]).
  { repeat constructor; vm_compute; reflexivity. }
  assert (B : Forall doubles [(2, 3); (5, 6)]).
  { repeat constructor; vm_compute; reflexivity. }
  assert (HD : is_double 10) by (vm_compute; reflexivity).
  split; [exact W|]. split; [exact L|]. split; [exact B|].
  split; [exact HD|].
  exact (padding_keeps_order_and_bounds [(2, 3); (5, 6)] 10 W L B HD).
Defined.

(** ** The silence parser: when it succeeds and what it returns *)

(** X5: the silence parser returns a list exactly when no marker of the
    text stands out of turn. *)
Theorem parser_succeeds_iff_alternating (parseFloat : jsstring -> Number)
  (output : jsstring) :
  (exists periods,
      getSilentPeriodListFromSilenceDetectOutput parseFloat output
      = Ok periods)
  <-> ~ violates_alternation (silencedetect_matchAll output).
Proof.
  split.
  - intros [periods E] V.
    assert (P : is_parse_error output
                  (getSilentPeriodListFromSilenceDetectOutput parseFloat
                     output)).
    { unfold getSilentPeriodListFromSilenceDetectOutput.
      apply (period_loop_throws parseFloat output _ 0%nat); [left; auto|].
      exact V. }
    rewrite E in P. destruct P; discriminate.
  - apply parser_accepts_alternation.
Qed.

Section ParserResult.

Variable parseFloat : jsstring -> Number.
Variable output : jsstring.

(** A run of the loop that returns has read balanced pairs, maybe followed
    by one start, and returns the periods of the pairs. *)
Lemma period_loop_result (ms : list marker) :
  forall startPosition periodList periods,
    period_loop parseFloat output startPosition periodList ms = Ok periods ->
    match startPosition with
    | None =>
        exists pairs tail,
          ms = markers_of pairs ++ tail /\ lone_start_or_nothing tail
          /\ periods = periodList ++ periods_of parseFloat pairs
    | Some x =>
        (ms = [] /\ periods = periodList)
        \/ exists c pairs tail,
            ms = (js "end", c) :: markers_of pairs ++ tail
            /\ lone_start_or_nothing tail
            /\ periods
               = periodList
                   ++ (x, parseFloat c) :: periods_of parseFloat pairs
    end.
Proof.
  induction ms as [|[type positionStr] ms IH];
    intros startPosition periodList periods E; cbn [period_loop] in E.
  - injection E as <-. destruct startPosition.
    + now left.
    + exists [], []. cbn. rewrite app_nil_r. repeat split. now left.
  - destruct startPosition as [x|].
    + destruct (jsstring_eqb type (js "end")) eqn:T; cbn [negb] in E;
        [|discriminate].
      apply jsstring_eqb_eq in T. subst type.
      apply IH in E. destruct E as (pairs & tail & -> & Ht & ->).
      right. exists positionStr, pairs, tail.
      rewrite <- app_assoc. cbn [app]. repeat split. exact Ht.
    + destruct (jsstring_eqb type (js "start")) eqn:T; cbn [negb] in E;
        [|discriminate].
      apply jsstring_eqb_eq in T. subst type.
      apply IH in E.
      destruct E as [[-> ->] | (c & pairs & tail & -> & Ht & ->)].
      * exists [], [(js "start", positionStr)]. cbn.
        rewrite app_nil_r. repeat split. right. eauto.
      * exists ((positionStr, c) :: pairs), tail. repeat split. exact Ht.
Qed.

End ParserResult.

(** X6: whenever the silence parser returns a list, the markers of the
    text are balanced start/end pairs, followed by one start at most, and
    the list holds the period of each pair, in order. *)
Theorem parser_result_is_the_pairs (parseFloat : jsstring -> Number)
  (output : jsstring) (periods : list period) :
  getSilentPeriodListFromSilenceDetectOutput parseFloat output = Ok periods ->
  exists pairs tail,
    silencedetect_matchAll output = markers_of pairs ++ tail
    /\ (tail = [] \/ exists c, tail = [(js "start", c)])
    /\ periods = periods_of parseFloat pairs.
Proof.
  intros E. unfold getSilentPeriodListFromSilenceDetectOutput in E.
  apply period_loop_result in E. exact E.
Qed.

Lemma parser_result_is_the_pairs_witness :
  getSilentPeriodListFromSilenceDetectOutput decimal_parseFloat
    trailing_start_text = Ok [(2, 7 # 2)]
  /\ exists pairs tail,
      silencedetect_matchAll trailing_start_text = markers_of pairs ++ tail
      /\ (tail = [] \/ exists c, tail = [(js "start", c)])
      /\ [(2, 7 # 2)] = periods_of decimal_parseFloat pairs.
Proof.
  split; [reflexivity|].
  exact (parser_result_is_the_pairs decimal_parseFloat trailing_start_text
           [(2, 7 # 2)] eq_refl).
Defined.

(** ** The marker pattern among other output *)

Lemma last_char_fold (t : jsstring) : forall prev,
  fold_left (fun _ c => Some c) t prev
  = match last_char t with
    | None => prev
    | Some c => Some c
    end.
Proof.
  unfold last_char. induction t as [|c t IH] using rev_ind; intros prev.
  - reflexivity.
  - rewrite fold_left_app, rev_app_distr. reflexivity.
Qed.

(** The search steps over text without an opening bracket. *)
Lemma matchAll_from_no_bracket (t rest : jsstring) : forall prev,
  no_bracket t = true ->
  matchAll_from prev 0 (t ++ rest)
  = matchAll_from (fold_left (fun _ c => Some c) t prev) 0 rest.
Proof.
  induction t as [|c t IH]; intros prev H.
  - reflexivity.
  - cbn [no_bracket forallb] in H. apply andb_true_iff in H.
    destruct H as [Hc Ht]. apply negb_true_iff in Hc.
    cbn [app fold_left].
    rewrite matchAll_from_other by (now rewrite N.eqb_sym).
    now apply IH.
Qed.

Lemma exec_numeral_before (x : numeral) (c : N) (rest : jsstring) :
  is_digit c = false -> N.eqb c 46 = false ->
  exec_numeral (numeral_text x ++ c :: rest)
  = Some (numeral_text x, c :: rest).
Proof.
  intros Hd Hp. unfold exec_numeral, numeral_text.
  destruct (fraction x) as [[d ds]|].
  - rewrite <- app_assoc. cbn [app].
    rewrite span_digits by reflexivity. cbn [map].
    change (N.eqb 46 46) with true. cbv iota.
    rewrite (span_digits (d :: ds)) by exact Hd. reflexivity.
  - rewrite app_nil_r, span_digits by exact Hd. cbn [map]. now rewrite Hp.
Qed.

Lemma filler_parts (t : jsstring) :
  filler t = true ->
  no_bracket t = true
  /\ (exists c t', t = c :: t' /\ is_digit c = false /\ N.eqb c 46 = false)
  /\ (exists last, last_char t = Some last
                   /\ is_line_terminator last = true).
Proof.
  unfold filler. rewrite !andb_true_iff. intros [[H1 H2] H3].
  split; [exact H1|]. split.
  - destruct t as [|c t']; [discriminate|]. exists c, t'.
    apply andb_true_iff in H2. destruct H2 as [A B].
    apply negb_true_iff in A, B. auto.
  - destruct (last_char t) as [last|]; [eauto | discriminate].
Qed.

(** A marker line among other output is matched once, and the search goes
    on at the start of a line behind its filler. *)
Lemma matchAll_from_marker_text (prev : option N) (kind : string)
  (x : numeral) (after rest : jsstring) :
  at_line_start prev = true ->
  kind = "start"%string \/ kind = "end"%string ->
  filler after = true ->
  exists prev',
    at_line_start prev' = true
    /\ matchAll_from prev 0 (marker_text kind x after ++ rest)
       = (js kind, numeral_text x) :: matchAll_from prev' 0 rest.
Proof.
  intros Hp K F.
  destruct (filler_parts after F) as (NB & (c & t' & -> & Hd & Hdot) & (last & LC & LT)).
  assert (He : silencedetect_exec (marker_text kind x (c :: t') ++ rest)
               = Some (js kind, numeral_text x, (c :: t') ++ rest)).
  { unfold marker_text. rewrite <- !app_assoc.
    rewrite (silencedetect_exec_prefix kind _ K).
    rewrite span_space_before_numeral. cbn [app].
    now rewrite exec_numeral_before. }
  assert (S : exists matched,
             marker_text kind x (c :: t') ++ rest
             = 91%N :: matched ++ (c :: t') ++ rest).
  { unfold marker_text. rewrite <- !app_assoc.
    change (js "[silencedetect @ 0x55d0c8a1b2c0] silence_")
      with (91%N :: js "silencedetect @ 0x55d0c8a1b2c0] silence_").
    cbn [app].
    exists (js "silencedetect @ 0x55d0c8a1b2c0] silence_" ++ js kind
              ++ js ": " ++ numeral_text x).
    now rewrite <- !app_assoc. }
  destruct S as [matched S]. rewrite S in He |- *.
  rewrite (matchAll_from_match prev 91 matched _ _ _ Hp He).
  rewrite (matchAll_from_no_bracket (c :: t') rest _ NB).
  eexists. split; [|reflexivity].
  rewrite last_char_fold, LC. exact LT.
Qed.

Lemma matchAll_render_reported (intervals : list reported) :
  Forall (fun i => filler (after_start i) = true
                   /\ filler (after_end i) = true) intervals ->
  forall prev, at_line_start prev = true ->
    matchAll_from prev 0 (render_reported intervals)
    = markers_of
        (map (fun i => (numeral_text (start_stamp i),
                        numeral_text (end_stamp i))) intervals).
Proof.
  induction 1 as [|i rest [Fs Fe] _ IH]; intros prev Hp.
  - reflexivity.
  - cbn [render_reported map markers_of flat_map fst snd app].
    destruct (matchAll_from_marker_text prev "start" (start_stamp i)
                (after_start i)
                (marker_text "end" (end_stamp i) (after_end i)
                   ++ render_reported rest) Hp (or_introl eq_refl) Fs)
      as (p1 & Hp1 & ->).
    destruct (matchAll_from_marker_text p1 "end" (end_stamp i)
                (after_end i) (render_reported rest) Hp1
                (or_intror eq_refl) Fe)
      as (p2 & Hp2 & ->).
    now rewrite (IH p2 Hp2).
Qed.

(** X7: other output does not disturb the parser.  A text made of a
    preamble without opening bracket and of marker lines, each followed by
    the rest of its line and any further lines without opening bracket, is
    read into the intervals of its marker lines, in order. *)
Theorem parser_ignores_other_output (parseFloat : jsstring -> Number)
  (preamble : jsstring) (intervals : list reported) :
  quiet_text preamble = true ->
  Forall (fun i => filler (after_start i) = true
                   /\ filler (after_end i) = true) intervals ->
  getSilentPeriodListFromSilenceDetectOutput parseFloat
    (preamble ++ render_reported intervals)
  = Ok (map (fun i => (parseFloat (numeral_text (start_stamp i)),
                       parseFloat (numeral_text (end_stamp i))))
          intervals).
Proof.
  intros Q F.
  unfold getSilentPeriodListFromSilenceDetectOutput, silencedetect_matchAll.
  unfold quiet_text in Q. apply andb_true_iff in Q. destruct Q as [NB LT].
  rewrite (matchAll_from_no_bracket preamble _ None NB).
  rewrite (matchAll_render_reported intervals F).
  - rewrite <- (app_nil_r (markers_of _)), period_loop_pairs.
    cbn [period_loop app]. unfold periods_of. rewrite map_map. reflexivity.
  - rewrite last_char_fold. revert LT.
    destruct (last_char preamble); trivial.
Qed.

Lemma parser_ignores_other_output_witness :
  quiet_text (js "ffmpeg version 4.4" ++ [10%N]) = true
  /\ getSilentPeriodListFromSilenceDetectOutput decimal_parseFloat
       ((js "ffmpeg version 4.4" ++ [10%N]) ++ render_reported [sample_report])
     = Ok [(2, 7 # 2)].
Proof.
  split; [reflexivity|].
  refine (parser_ignores_other_output decimal_parseFloat
            (js "ffmpeg version 4.4" ++ [10%N]) [sample_report] eq_refl _).
  repeat constructor.
Defined.

(** ** Markers stand at the start of a line *)

Lemma matchAll_from_same_line (l : jsstring) : forall p,
  is_line_terminator p = false -> single_line l = true ->
  matchAll_from (Some p) 0 l = [].
Proof.
  induction l as [|c t IH]; intros p Hp H.
  - reflexivity.
  - cbn [single_line forallb] in H. apply andb_true_iff in H.
    destruct H as [Hc Ht]. apply negb_true_iff in Hc.
    cbn [matchAll_from at_line_start]. rewrite Hp. now apply IH.
Qed.

(** X8: the parser recognises a marker at the start of a line only: a text
    of one line that does not begin with an opening bracket holds no
    marker, whatever follows on the line. *)
Theorem marker_needs_line_start (c : N) (t : jsstring) :
  N.eqb 91 c = false -> single_line (c :: t) = true ->
  silencedetect_matchAll (c :: t) = [].
Proof.
  intros Hc H. unfold silencedetect_matchAll.
  rewrite matchAll_from_other by exact Hc.
  cbn [single_line forallb] in H. apply andb_true_iff in H.
  destruct H as [Hl Ht]. apply negb_true_iff in Hl.
  now apply matchAll_from_same_line.
Qed.

Lemma marker_needs_line_start_witness :
  single_line (js " [silencedetect @ 0x55d0c8a1b2c0] silence_start: 2")
  = true
  /\ silencedetect_matchAll
       (js " [silencedetect @ 0x55d0c8a1b2c0] silence_start: 2") = [].
Proof.
  split; [reflexivity|].
  exact (marker_needs_line_start 32
           (js "[silencedetect @ 0x55d0c8a1b2c0] silence_start: 2")
           eq_refl eq_refl).
Defined.

(** ** The mean volume *)

Lemma strip_prefix_app (lit : jsstring) : forall l r,
  strip_prefix lit l = Some r -> l = lit ++ r.
Proof.
  induction lit as [|x lit IH]; intros l r H; cbn in H.
  - now injection H as ->.
  - destruct l as [|y l]; [discriminate|].
    destruct (N.eqb x y) eqn:E; [|discriminate].
    apply N.eqb_eq in E. subst y. cbn. f_equal. now apply IH.
Qed.

Lemma span_app (p : N -> bool) (l : jsstring) :
  l = fst (span p l) ++ snd (span p l).
Proof.
  induction l as [|c t IH]; cbn [span]; [reflexivity|].
  destruct (p c); [|reflexivity].
  destruct (span p t) as [taken rest]. cbn [fst snd app] in *.
  now rewrite <- IH.
Qed.

Lemma includes_here (needle l r : jsstring) :
  strip_prefix needle l = Some r -> includes needle l = true.
Proof. intros H. destruct l; cbn [includes]; now rewrite H. Qed.

Lemma includes_later (needle before l : jsstring) :
  includes needle l = true -> includes needle (before ++ l) = true.
Proof.
  intros H. induction before as [|c before IH]; [exact H|].
  cbn [app includes]. now destruct (strip_prefix needle (c :: before ++ l)).
Qed.

(** A line the volume pattern matches holds the words [mean_volume]. *)
Lemma volumedetect_exec_includes (l capture : jsstring) :
  volumedetect_exec l = Some capture ->
  includes (js "mean_volume") l = true.
Proof.
  unfold volumedetect_exec, bind_option.
  destruct (strip_prefix (js "[Parsed_volumedetect_") l) as [r1|] eqn:E1;
    [|discriminate].
  destruct r1 as [|d r2]; [discriminate|].
  destruct (is_digit d); [|discriminate].
  destruct (strip_prefix (js "]") (snd (span not_bracket r2)))
    as [r3|] eqn:E3; [|discriminate].
  destruct (strip_prefix (js "mean_volume") (snd (span is_space r3)))
    as [r4|] eqn:E4; [|discriminate].
  intros _.
  apply strip_prefix_app in E1. apply strip_prefix_app in E3.
  apply includes_here in E4.
  rewrite E1. apply includes_later.
  apply (includes_later _ [d]).
  rewrite (span_app not_bracket r2). apply includes_later.
  rewrite E3. apply includes_later.
  rewrite (span_app is_space r3). now apply includes_later.
Qed.

Lemma volumedetect_match_includes (l : jsstring) : forall prev capture,
  volumedetect_match prev l = Some capture ->
  includes (js "mean_volume") l = true.
Proof.
  induction l as [|c t IH]; intros prev capture H; cbn [volumedetect_match] in H.
  - destruct (at_line_start prev); [|discriminate].
    destruct (volumedetect_exec []) eqn:E; [|discriminate].
    now apply volumedetect_exec_includes in E.
  - destruct (if at_line_start prev then volumedetect_exec (c :: t) else None)
      as [m|] eqn:E.
    + destruct (at_line_start prev); [|discriminate].
      now apply volumedetect_exec_includes in E.
    + apply IH in H. now apply (includes_later _ [c]).
Qed.

(** X9: a volume analysis output in which the words [mean_volume] do not
    occur is rejected with the error "Volume Detect Output Error: "
    followed by the output. *)
Theorem volume_missing_is_an_error (parseFloat : jsstring -> Number)
  (output : jsstring) :
  includes (js "mean_volume") output = false ->
  getMinValumeFromVolumeDetectOutput parseFloat output
  = Throw (Error (js "Volume Detect Output Error: " ++ output)).
Proof.
  intros H. unfold getMinValumeFromVolumeDetectOutput.
  destruct (volumedetect_match None output) as [capture|] eqn:E;
    [|reflexivity].
  apply volumedetect_match_includes in E. congruence.
Qed.

Lemma volume_missing_is_an_error_witness :
  includes (js "mean_volume") no_marker_text = false
  /\ getMinValumeFromVolumeDetectOutput decimal_parseFloat no_marker_text
     = Throw (Error (js "Volume Detect Output Error: " ++ no_marker_text)).
Proof.
  split; [reflexivity|].
  exact (volume_missing_is_an_error decimal_parseFloat no_marker_text
           eq_refl).
Defined.

Lemma volumedetect_match_no_bracket (t rest : jsstring) : forall prev,
  no_bracket t = true ->
  volumedetect_match prev (t ++ rest)
  = volumedetect_match (fold_left (fun _ c => Some c) t prev) rest.
Proof.
  induction t as [|c t IH]; intros prev H.
  - reflexivity.
  - cbn [no_bracket forallb] in H. apply andb_true_iff in H.
    destruct H as [Hc Ht]. apply negb_true_iff in Hc.
    cbn [app fold_left volumedetect_match].
    assert (E : volumedetect_exec (c :: t ++ rest) = None).
    { unfold volumedetect_exec.
      change (js "[Parsed_volumedetect_")
        with (91%N :: js "Parsed_volumedetect_").
      cbn [strip_prefix]. rewrite N.eqb_sym. now rewrite Hc. }
    rewrite E. destruct (at_line_start prev); now apply IH.
Qed.

Lemma volumedetect_match_here (prev : option N) (l capture : jsstring) :
  at_line_start prev = true -> volumedetect_exec l = Some capture ->
  volumedetect_match prev l = Some capture.
Proof.
  intros Hp He. destruct l; cbn [volumedetect_match]; now rewrite Hp, He.
Qed.

(** The volume pattern on the line of the mean volume, up to the sign:
    everything before it is fixed text. *)
Lemma volumedetect_exec_prefix (body : jsstring) :
  volumedetect_exec
    (js "[Parsed_volumedetect_0 @ 0x55d0c8a1b2c0] mean_volume: " ++ body)
  = let r6 := snd (span is_space (32%N :: body)) in
    let '(sign, r7) :=
      match strip_prefix (js "-") r6 with
      | Some r => (js "-", r)
      | None => ([], r6)
      end in
    bind_option (exec_numeral r7)
      (fun m => let '(digits, r8) := m in
                bind_option
                  (strip_prefix (js "dB") (snd (span is_space r8)))
                  (fun r9 => if at_line_end r9 then Some (sign ++ digits)
                             else None)).
Proof. reflexivity. Qed.

Lemma numeral_no_sign (x : numeral) (rest : jsstring) :
  strip_prefix (js "-") (numeral_text x ++ rest) = None.
Proof. unfold numeral_text. now destruct (int_first x). Qed.

Lemma volumedetect_exec_line (negative : bool) (x : numeral)
  (tail : jsstring) :
  at_line_end tail = true ->
  volumedetect_exec (volume_line negative x ++ tail)
  = Some (sign_text negative ++ numeral_text x).
Proof.
  intros H. unfold volume_line. rewrite <- !app_assoc.
  rewrite volumedetect_exec_prefix. cbv zeta.
  assert (N : exec_numeral (numeral_text x ++ js " dB" ++ tail)
              = Some (numeral_text x, js " dB" ++ tail))
    by now apply exec_numeral_before.
  destruct negative; unfold sign_text.
  - change (snd (span is_space
                   (32%N :: js "-" ++ numeral_text x ++ js " dB" ++ tail)))
      with (js "-" ++ numeral_text x ++ js " dB" ++ tail).
    change (strip_prefix (js "-")
              (js "-" ++ numeral_text x ++ js " dB" ++ tail))
      with (Some (numeral_text x ++ js " dB" ++ tail)).
    cbv iota. rewrite N. cbn [bind_option].
    change (strip_prefix (js "dB") (snd (span is_space (js " dB" ++ tail))))
      with (Some tail).
    cbn [bind_option]. now rewrite H.
  - cbn [app]. rewrite span_space_before_numeral, numeral_no_sign.
    rewrite N. cbn [bind_option].
    change (strip_prefix (js "dB") (snd (span is_space (js " dB" ++ tail))))
      with (Some tail).
    cbn [bind_option]. now rewrite H.
Qed.

(** X10: the mean volume is read from the first line that reports it: in
    an output made of a preamble without opening bracket, the line of the
    mean volume and anything behind the end of that line, the result is the
    number of that line, with its sign. *)
Theorem volume_is_read_from_first_line (parseFloat : jsstring -> Number)
  (preamble tail : jsstring) (negative : bool) (x : numeral) :
  quiet_text preamble = true ->
  at_line_end tail = true ->
  getMinValumeFromVolumeDetectOutput parseFloat
    (preamble ++ volume_line negative x ++ tail)
  = Ok (parseFloat (sign_text negative ++ numeral_text x)).
Proof.
  intros Q T. unfold getMinValumeFromVolumeDetectOutput.
  unfold quiet_text in Q. apply andb_true_iff in Q. destruct Q as [NB LT].
  rewrite (volumedetect_match_no_bracket preamble _ None NB).
  rewrite (volumedetect_match_here _ _ (sign_text negative ++ numeral_text x)).
  - reflexivity.
  - rewrite last_char_fold. revert LT. destruct (last_char preamble); trivial.
  - now apply volumedetect_exec_line.
Qed.

Lemma volume_is_read_from_first_line_witness :
  quiet_text (js "ffmpeg version 4.4" ++ [10%N]) = true
  /\ at_line_end
       ([10%N] ++ volume_line true
                    {| int_first := D1; int_more := []; fraction := None |})
     = true
  /\ getMinValumeFromVolumeDetectOutput decimal_parseFloat
       ((js "ffmpeg version 4.4" ++ [10%N])
          ++ volume_line true
               {| int_first := D2; int_more := [D3];
                  fraction := Some (D5, []) |}
          ++ [10%N]
          ++ volume_line true
               {| int_first := D1; int_more := []; fraction := None |})
     = Ok (-47 # 2).
Proof.
  split; [reflexivity|]. split; [reflexivity|].
  exact (volume_is_read_from_first_line decimal_parseFloat
           (js "ffmpeg version 4.4" ++ [10%N])
           ([10%N] ++ volume_line true
                        {| int_first := D1; int_more := [];
                           fraction := None |})
           true
           {| int_first := D2; int_more := [D3];
              fraction := Some (D5, []) |}
           eq_refl eq_refl).
Defined.

(** ** Probing and directory mode *)

(** [isVideoFile] is one probe and the answer whether it succeeded. *)
Lemma isVideoFile_run (host : Host) (path : jsstring) (t : trace) :
  isVideoFile host path t
  = (t ++ [probe path],
     Ok match ffprobe_answer host t [AStr (js "-i"); AStr path] with
        | Ok _ => true
        | Throw _ => false
        end).
Proof.
  unfold isVideoFile, try_catch, bind, execFfprobe, perform, ret, probe.
  now destruct (ffprobe_answer host t [AStr (js "-i"); AStr path]).
Qed.

(** X11: [isVideoFile] never throws: whatever the probing tool does, it
    runs one probe and returns a truth value, which is [true] exactly when
    the probe succeeded. *)
Theorem isVideoFile_never_throws (host : Host) (path : jsstring)
  (t : trace) :
  exists answer,
    isVideoFile host path t = (t ++ [probe path], Ok answer)
    /\ (answer = true
        <-> exists out,
              ffprobe_answer host t [AStr (js "-i"); AStr path] = Ok out).
Proof.
  unfold isVideoFile, try_catch, bind, execFfprobe, perform, ret, probe.
  destruct (ffprobe_answer host t [AStr (js "-i"); AStr path]) as [out|e].
  - exists true. split; [reflexivity|]. split; eauto.
  - exists false. split; [reflexivity|].
    split; [discriminate | intros [out H]; discriminate H].
Qed.

Section Directory.

Variable host : Host.
Variables videoDirPath outputDirPath : jsstring.

(** Entries whose output already probes as a video cost one probe each. *)
Lemma directory_loop_finished (files : list jsstring) : forall t,
  (forall f t', In f files ->
     exists out,
       ffprobe_answer host t'
         [AStr (js "-i"); AStr (path_join host outputDirPath f)] = Ok out) ->
  directory_loop host videoDirPath outputDirPath files t
  = (t ++ map (fun f => probe (path_join host outputDirPath f)) files,
     Ok tt).
Proof.
  induction files as [|f rest IH]; intros t H.
  - cbn. now rewrite app_nil_r.
  - cbn [directory_loop map]. unfold bind at 1. unfold bind at 1.
    rewrite isVideoFile_run.
    destruct (H f t (or_introl eq_refl)) as [out ->].
    unfold ret at 1. rewrite IH by (intros; apply H; now right).
    now rewrite <- app_assoc.
Qed.

(** Entries that do not probe as a video, and have no output that does,
    cost two probes each. *)
Lemma directory_loop_no_video (files : list jsstring) : forall t,
  (forall f t' p, In f files ->
     p = path_join host outputDirPath f \/ p = path_join host videoDirPath f ->
     exists e, ffprobe_answer host t' [AStr (js "-i"); AStr p] = Throw e) ->
  directory_loop host videoDirPath outputDirPath files t
  = (t ++ flat_map (fun f => [probe (path_join host outputDirPath f);
                              probe (path_join host videoDirPath f)]) files,
     Ok tt).
Proof.
  induction files as [|f rest IH]; intros t H.
  - cbn. now rewrite app_nil_r.
  - cbn [directory_loop flat_map]. unfold bind at 1. unfold bind at 1.
    rewrite isVideoFile_run.
    destruct (H f t _ (or_introl eq_refl) (or_introl eq_refl)) as [e1 ->].
    unfold bind at 1. rewrite isVideoFile_run.
    destruct (H f (t ++ [probe (path_join host outputDirPath f)]) _
                (or_introl eq_refl) (or_intror eq_refl)) as [e2 ->].
    unfold ret at 1. rewrite IH
      by (intros f0 t0 p0 Hin Hp; exact (H f0 t0 p0 (or_intror Hin) Hp)).
    rewrite <- !app_assoc. reflexivity.
Qed.

End Directory.

(** Directory mode on a path: the listing, the output directory, the
    loop. *)
Lemma directory_mode_steps (host : Host) (videoDirPath : jsstring)
  (outputDirPath : option jsstring) :
  removeSilentFromVideoDirectory host (Some videoDirPath) outputDirPath
  = (videoFilenameList <-
       perform (Readdir videoDirPath)
         (fun t => readdir_answer host t videoDirPath) ;;
     perform (Mkdirp (output_dir host videoDirPath outputDirPath))
       (fun t => mkdirp_answer host t
                   (output_dir host videoDirPath outputDirPath)) ;;;
     directory_loop host videoDirPath
       (output_dir host videoDirPath outputDirPath) videoFilenameList).
Proof. reflexivity. Qed.

(** X12: directory mode on a directory whose entries all have an output
    that probes as a video lists the directory, makes the output directory
    and probes each output once; it processes nothing again. *)
Theorem directory_skips_finished_entries (host : Host)
  (videoDirPath : jsstring) (outputDirPath : option jsstring)
  (files : list jsstring) (t : trace) :
  readdir_answer host t videoDirPath = Ok files ->
  mkdirp_answer host (t ++ [Readdir videoDirPath])
    (output_dir host videoDirPath outputDirPath) = Ok tt ->
  (forall f t', In f files ->
     exists out,
       ffprobe_answer host t'
         [AStr (js "-i");
          AStr (path_join host
                  (output_dir host videoDirPath outputDirPath) f)]
       = Ok out) ->
  removeSilentFromVideoDirectory host (Some videoDirPath) outputDirPath t
  = (t ++ [Readdir videoDirPath;
           Mkdirp (output_dir host videoDirPath outputDirPath)]
       ++ map (fun f =>
                 probe (path_join host
                          (output_dir host videoDirPath outputDirPath) f))
            files,
     Ok tt).
Proof.
  intros Hread Hmk Hprobe.
  rewrite directory_mode_steps.
  unfold bind at 1. unfold perform at 1. rewrite Hread.
  unfold bind at 1. unfold perform at 1. rewrite Hmk.
  rewrite directory_loop_finished by exact Hprobe.
  rewrite <- !app_assoc. reflexivity.
Qed.

Lemma directory_skips_finished_entries_witness :
  removeSilentFromVideoDirectory long_host (Some (js "videos")) None []
  = ([Readdir (js "videos"); Mkdirp (js "./videos.silenceremoved");
      probe (js "./videos.silenceremoved/a.mp4");
      probe (js "./videos.silenceremoved/b.mp4")],
     Ok tt).
Proof.
  refine (directory_skips_finished_entries long_host (js "videos") None
            [js "a.mp4"; js "b.mp4"] [] eq_refl eq_refl _).
  intros f t' _. exists (js "10"). reflexivity.
Defined.

(** X13: directory mode passes over the entries that are no video: when
    neither an entry nor its output probes as one, the entry costs two
    probes and nothing else, and the run succeeds. *)
Theorem directory_ignores_other_entries (host : Host)
  (videoDirPath : jsstring) (outputDirPath : option jsstring)
  (files : list jsstring) (t : trace) :
  readdir_answer host t videoDirPath = Ok files ->
  mkdirp_answer host (t ++ [Readdir videoDirPath])
    (output_dir host videoDirPath outputDirPath) = Ok tt ->
  (forall f t' p, In f files ->
     p = path_join host (output_dir host videoDirPath outputDirPath) f
     \/ p = path_join host videoDirPath f ->
     exists e, ffprobe_answer host t' [AStr (js "-i"); AStr p] = Throw e) ->
  removeSilentFromVideoDirectory host (Some videoDirPath) outputDirPath t
  = (t ++ [Readdir videoDirPath;
           Mkdirp (output_dir host videoDirPath outputDirPath)]
       ++ flat_map
            (fun f =>
               [probe (path_join host
                         (output_dir host videoDirPath outputDirPath) f);
                probe (path_join host videoDirPath f)])
            files,
     Ok tt).
Proof.
  intros Hread Hmk Hprobe.
  rewrite directory_mode_steps.
  unfold bind at 1. unfold perform at 1. rewrite Hread.
  unfold bind at 1. unfold perform at 1. rewrite Hmk.
  rewrite directory_loop_no_video by exact Hprobe.
  rewrite <- !app_assoc. reflexivity.
Qed.

(** X14: in directory mode an error of the processing of one entry whose
    message holds "Too many packets buffered for output stream" is logged
    and the run goes on with the next entry; any other error ends the run
    and is thrown. *)
Theorem directory_error_policy (host : Host)
  (videoDirPath outputDirPath filename : jsstring) (rest : list jsstring)
  (t t' : trace) (e : exn) :
  (exists err,
      ffprobe_answer host t
        [AStr (js "-i"); AStr (path_join host outputDirPath filename)]
      = Throw err) ->
  (exists out,
      ffprobe_answer host
        (t ++ [probe (path_join host outputDirPath filename)])
        [AStr (js "-i"); AStr (path_join host videoDirPath filename)]
      = Ok out) ->
  removeSilentFromVideoFile host
    (Some (path_join host videoDirPath filename))
    (Some (path_join host outputDirPath filename))
    (t ++ [probe (path_join host outputDirPath filename);
           probe (path_join host videoDirPath filename)])
  = (t', Throw e) ->
  directory_loop host videoDirPath outputDirPath (filename :: rest) t
  = if includes buffering_message (message e) then
      directory_loop host videoDirPath outputDirPath rest
        (t' ++ [ConsoleError (js "Ignore error that cannot be resolved: ")
                  (LErr e)])
    else (t', Throw e).
Proof.
  intros [err Hout] [out Hin] Hrun.
  cbn [directory_loop]. unfold bind at 1. unfold bind at 1.
  rewrite isVideoFile_run, Hout.
  unfold bind at 1. rewrite isVideoFile_run, Hin.
  unfold try_catch. rewrite <- app_assoc. cbn [app]. rewrite Hrun.
  fold buffering_message.
  destruct (includes buffering_message (message e)); reflexivity.
Qed.

Lemma directory_ignores_other_entries_witness :
  removeSilentFromVideoDirectory blind_host (Some (js "videos")) None []
  = ([Readdir (js "videos"); Mkdirp (js "./videos.silenceremoved");
      probe (js "./videos.silenceremoved/notes.txt");
      probe (js "videos/notes.txt")],
     Ok tt).
Proof.
  refine (directory_ignores_other_entries blind_host (js "videos") None
            [js "notes.txt"] [] eq_refl eq_refl _).
  intros f t' p _ _. exists (Error (js "Invalid data found")). reflexivity.
Defined.

Lemma directory_error_policy_witness :
  directory_loop stuck_host (js "in") (js "out") [js "a.mp4"] []
  = ([probe (js "out/a.mp4"); probe (js "in/a.mp4");
      Ffprobe (duration_args (js "in/a.mp4"));
      ConsoleError (js "Ignore error that cannot be resolved: ")
        (LErr (Error
                 (js "Too many packets buffered for output stream 0:1.")))],
     Ok tt).
Proof.
  rewrite (directory_error_policy stuck_host (js "in") (js "out")
             (js "a.mp4") [] []
             [probe (js "out/a.mp4"); probe (js "in/a.mp4");
              Ffprobe (duration_args (js "in/a.mp4"))]
             (Error (js "Too many packets buffered for output stream 0:1."))).
  - reflexivity.
  - exists (Error (js "Invalid data found")). reflexivity.
  - exists []. reflexivity.
  - reflexivity.
Defined.

(** ** Single-file processing step by step *)

Section Extraction.

Variable host : Host.
Variables videoPath chunkedVideoDirname outputVideoExtname : jsstring.

(** The loop body, with the names of the definitions above. *)
Lemma extract_loop_cons (chunks : list jsstring) (p : period)
  (rest : list period) :
  extract_loop host videoPath chunkedVideoDirname outputVideoExtname chunks
    (p :: rest)
  = (execFfmpeg host
       (extraction_args host videoPath chunkedVideoDirname
          outputVideoExtname p) ;;;
     extract_loop host videoPath chunkedVideoDirname outputVideoExtname
       (chunks
          ++ [chunk_path host chunkedVideoDirname outputVideoExtname p])
       rest).
Proof. destruct p. reflexivity. Qed.

Lemma extract_loop_all (periods : list period) : forall chunks t,
  (forall p t', In p periods ->
     exists out,
       ffmpeg_answer host t'
         (extraction_args host videoPath chunkedVideoDirname
            outputVideoExtname p) = Ok out) ->
  extract_loop host videoPath chunkedVideoDirname outputVideoExtname chunks
    periods t
  = (t ++ map (extraction host videoPath chunkedVideoDirname
                 outputVideoExtname) periods,
     Ok (chunks
           ++ map (chunk_path host chunkedVideoDirname outputVideoExtname)
                periods)).
Proof.
  induction periods as [|p rest IH]; intros chunks t H.
  - cbn. now rewrite !app_nil_r.
  - rewrite extract_loop_cons. unfold bind, execFfmpeg, perform.
    destruct (H p t (or_introl eq_refl)) as [out ->].
    rewrite IH by (intros q t' Hq; exact (H q t' (or_intror Hq))).
    cbn [map]. unfold extraction at 2. rewrite <- !app_assoc. reflexivity.
Qed.

End Extraction.

(** X15: when the extractions succeed, the extraction loop runs one
    invocation for each keep interval, in the order of the intervals, from
    its start for the length [end - start], and returns the chunk files in
    the same order. *)
Theorem extraction_follows_the_plan (host : Host)
  (videoPath chunkedVideoDirname outputVideoExtname : jsstring)
  (periods : list period) (t : trace) :
  (forall p t', In p periods ->
     exists out,
       ffmpeg_answer host t'
         (extraction_args host videoPath chunkedVideoDirname
            outputVideoExtname p) = Ok out) ->
  extract_loop host videoPath chunkedVideoDirname outputVideoExtname []
    periods t
  = (t ++ map (extraction host videoPath chunkedVideoDirname
                 outputVideoExtname) periods,
     Ok (map (chunk_path host chunkedVideoDirname outputVideoExtname)
           periods)).
Proof. intros H. now rewrite extract_loop_all. Qed.

Lemma extraction_follows_the_plan_witness :
  extract_loop long_host (js "movie.mp4") (js "out.mp4.tmp") (js ".mp4") []
    [(0, 2); (3, 10)] []
  = ([extraction long_host (js "movie.mp4") (js "out.mp4.tmp") (js ".mp4")
        (0, 2);
      extraction long_host (js "movie.mp4") (js "out.mp4.tmp") (js ".mp4")
        (3, 10)],
     Ok [js "out.mp4.tmp/0-0.mp4"; js "out.mp4.tmp/0-0.mp4"]).
Proof.
  refine (extraction_follows_the_plan long_host (js "movie.mp4")
            (js "out.mp4.tmp") (js ".mp4") [(0, 2); (3, 10)] [] _).
  intros p t' _. eexists. reflexivity.
Defined.

(** X16: an extraction that fails ends the loop: the intervals before it
    are extracted, none after it is, and its error is thrown. *)
Theorem extraction_stops_at_failure (host : Host)
  (videoPath chunkedVideoDirname outputVideoExtname : jsstring)
  (done rest : list period) (failing : period) (e : exn) (t : trace) :
  (forall p t', In p done ->
     exists out,
       ffmpeg_answer host t'
         (extraction_args host videoPath chunkedVideoDirname
            outputVideoExtname p) = Ok out) ->
  ffmpeg_answer host
    (t ++ map (extraction host videoPath chunkedVideoDirname
                 outputVideoExtname) done)
    (extraction_args host videoPath chunkedVideoDirname outputVideoExtname
       failing)
  = Throw e ->
  extract_loop host videoPath chunkedVideoDirname outputVideoExtname []
    (done ++ failing :: rest) t
  = (t ++ map (extraction host videoPath chunkedVideoDirname
                 outputVideoExtname) (done ++ [failing]),
     Throw e).
Proof.
  intros Hdone Hfail. generalize (@nil jsstring) as chunks.
  revert t Hfail. induction done as [|p done IH]; intros t Hfail chunks.
  - cbn [app map] in *. rewrite extract_loop_cons.
    unfold bind, execFfmpeg, perform. rewrite app_nil_r in Hfail.
    now rewrite Hfail.
  - cbn [app map] in *. rewrite extract_loop_cons.
    unfold bind, execFfmpeg, perform.
    destruct (Hdone p t (or_introl eq_refl)) as [out ->].
    rewrite IH.
    + unfold extraction at 3. rewrite <- !app_assoc. reflexivity.
    + intros q t' Hq. exact (Hdone q t' (or_intror Hq)).
    + rewrite <- app_assoc. exact Hfail.
Qed.

Lemma extraction_stops_at_failure_witness :
  extract_loop failing_host (js "movie.mp4") (js "out.mp4.tmp") (js ".mp4")
    [] ([(0, 2)] ++ (3, 10) :: [(12, 15)]) []
  = ([extraction failing_host (js "movie.mp4") (js "out.mp4.tmp")
        (js ".mp4") (0, 2);
      extraction failing_host (js "movie.mp4") (js "out.mp4.tmp")
        (js ".mp4") (3, 10)],
     Throw (Error (js "Conversion failed!"))).
Proof.
  refine (extraction_stops_at_failure failing_host (js "movie.mp4")
            (js "out.mp4.tmp") (js ".mp4") [(0, 2)] [(12, 15)] (3, 10)
            (Error (js "Conversion failed!")) [] _ eq_refl).
  intros p t' [<- | []]. eexists. reflexivity.
Defined.

Section FileSteps.

Variable host : Host.
Variable videoPath : jsstring.
Variable outputVideoPath : option jsstring.
Variable t : trace.
Variables videoDurationStr volumeDetectOutput : jsstring.

(** The analysis tool is asked for the duration and for the volume, and
    the volume is read. *)
Hypothesis duration_answer :
  ffprobe_answer host t (duration_args videoPath) = Ok videoDurationStr.
Hypothesis volume_answer :
  ffmpeg_answer host (t ++ [Ffprobe (duration_args videoPath)])
    (volumedetect_args videoPath)
  = Ok volumeDetectOutput.

(** Single-file processing, from the reading of the mean volume on. *)
Lemma file_processing_from_volume :
  removeSilentFromVideoFile host (Some videoPath) outputVideoPath t
  = match getMinValumeFromVolumeDetectOutput (parseFloat host)
            volumeDetectOutput with
    | Throw e =>
        (t ++ [Ffprobe (duration_args videoPath);
               Ffmpeg (volumedetect_args videoPath)],
         Throw e)
    | Ok volume =>
        match ffmpeg_answer host
                (t ++ [Ffprobe (duration_args videoPath);
                       Ffmpeg (volumedetect_args videoPath)])
                (silencedetect_args host videoPath (Number_sub volume 0)
                   (Number_add minimumSilentDuration remainingSilentDuration)) with
        | Throw e => (t ++ analysis host videoPath volume, Throw e)
        | Ok output =>
            match getSilentPeriodListFromSilenceDetectOutput
                    (parseFloat host) output with
            | Throw e => (t ++ analysis host videoPath volume, Throw e)
            | Ok silentPeriodList =>
                let keep :=
                  adjustNotSilentPeriodList
                    (planNotSilentPeriodList silentPeriodList
                       (parseFloat host videoDurationStr)) in
                let out := output_path host videoPath outputVideoPath in
                let tmp := out ++ js ".tmp" in
                if Nat.ltb 0 (length keep) then
                  (perform (Mkdirp tmp) (fun t => mkdirp_answer host t tmp) ;;;
                   chunks <-
                     extract_loop host videoPath tmp (path_extname host out)
                       [] keep ;;
                   perform
                     (OutputFile (path_join host tmp (js "filelist.txt"))
                        (concatFileContent chunks))
                     (fun t =>
                        outputFile_answer host t
                          (path_join host tmp (js "filelist.txt"))
                          (concatFileContent chunks)) ;;;
                   execFfmpeg host
                     (concat_step host videoPath outputVideoPath) ;;;
                   perform (Remove tmp) (fun t => remove_answer host t tmp))
                    (t ++ analysis host videoPath volume)
                else (t ++ analysis host videoPath volume, Ok tt)
            end
        end
    end.
Proof.
  unfold removeSilentFromVideoFile, path_argument, execFfprobe.
  unfold bind at 1. unfold ret at 1.
  unfold bind at 1. unfold perform at 1. rewrite duration_answer.
  unfold bind at 1. unfold execFfmpeg at 1. unfold perform at 1.
  rewrite volume_answer.
  unfold bind at 1. unfold lift at 1. rewrite <- app_assoc. cbn [app].
  destruct (getMinValumeFromVolumeDetectOutput (parseFloat host)
              volumeDetectOutput) as [volume|e]; [|reflexivity].
  unfold bind at 1. unfold execFfmpeg at 1. unfold perform at 1.
  rewrite <- app_assoc. cbn [app]. fold (analysis host videoPath volume).
  destruct (ffmpeg_answer host
              (t ++ [Ffprobe (duration_args videoPath);
                     Ffmpeg (volumedetect_args videoPath)])
              (silencedetect_args host videoPath (Number_sub volume 0)
                 (Number_add minimumSilentDuration remainingSilentDuration)))
    as [output|e]; [|reflexivity].
  unfold bind at 1. unfold lift at 1.
  destruct (getSilentPeriodListFromSilenceDetectOutput _ output)
    as [silentPeriodList|e]; [|reflexivity].
  cbv zeta. fold (output_path host videoPath outputVideoPath).
  destruct (Nat.ltb 0 _); reflexivity.
Qed.

End FileSteps.

Section Rendering.

Variable host : Host.
Variable videoPath : jsstring.
Variable outputVideoPath : option jsstring.
Variable keep : list period.

Abbreviation tmp := (tmp_dir host videoPath outputVideoPath).

Hypothesis mkdirp_ok : forall t', mkdirp_answer host t' tmp = Ok tt.
Hypothesis extractions_ok : forall p t', In p keep ->
  exists out,
    ffmpeg_answer host t'
      (extraction_args host videoPath tmp
         (path_extname host (output_path host videoPath outputVideoPath)) p)
    = Ok out.
Hypothesis outputFile_ok : forall t' content,
  outputFile_answer host t' (path_join host tmp (js "filelist.txt"))
    content = Ok tt.

(** The rendering steps of lines 96-114 when the directory can be made,
    the chunks extracted and the listing written: what is left is the
    concatenation and the removal of the directory. *)
Lemma rendering_steps (t0 : trace) (volume : Number) :
  (perform (Mkdirp tmp) (fun t => mkdirp_answer host t tmp) ;;;
   chunks <-
     extract_loop host videoPath tmp
       (path_extname host (output_path host videoPath outputVideoPath))
       [] keep ;;
   perform
     (OutputFile (path_join host tmp (js "filelist.txt"))
        (concatFileContent chunks))
     (fun t =>
        outputFile_answer host t
          (path_join host tmp (js "filelist.txt"))
          (concatFileContent chunks)) ;;;
   execFfmpeg host (concat_step host videoPath outputVideoPath) ;;;
   perform (Remove tmp) (fun t => remove_answer host t tmp))
    (t0 ++ analysis host videoPath volume)
  = match ffmpeg_answer host
            (t0 ++ steps_to_listing host videoPath outputVideoPath volume
                     keep)
            (concat_step host videoPath outputVideoPath) with
    | Ok _ =>
        (t0 ++ steps_to_listing host videoPath outputVideoPath volume keep
            ++ [Ffmpeg (concat_step host videoPath outputVideoPath);
                Remove tmp],
         remove_answer host
           (t0 ++ steps_to_listing host videoPath outputVideoPath volume
                    keep
               ++ [Ffmpeg (concat_step host videoPath outputVideoPath)])
           tmp)
    | Throw e =>
        (t0 ++ steps_to_listing host videoPath outputVideoPath volume keep
            ++ [Ffmpeg (concat_step host videoPath outputVideoPath)],
         Throw e)
    end.
Proof.
  unfold bind at 1. unfold perform at 1. rewrite mkdirp_ok.
  unfold bind at 1.
  rewrite extract_loop_all by exact extractions_ok.
  unfold bind at 1. unfold perform at 1. rewrite outputFile_ok.
  unfold bind at 1. unfold execFfmpeg at 1. unfold perform at 1.
  assert (E : (((t0 ++ analysis host videoPath volume) ++ [Mkdirp tmp])
                 ++ map (extraction host videoPath tmp
                           (path_extname host
                              (output_path host videoPath outputVideoPath)))
                      keep)
                ++ [OutputFile (path_join host tmp (js "filelist.txt"))
                      (concatFileContent
                         (map (chunk_path host tmp
                                 (path_extname host
                                    (output_path host videoPath
                                       outputVideoPath))) keep))]
              = t0 ++ steps_to_listing host videoPath outputVideoPath volume
                        keep).
  { unfold steps_to_listing, tmp_dir. cbv zeta.
    rewrite <- !app_assoc. reflexivity. }
  cbn [app] in E |- *. rewrite E.
  destruct (ffmpeg_answer host _ _) as [out|e].
  - unfold perform. rewrite <- !app_assoc. reflexivity.
  - rewrite <- !app_assoc. reflexivity.
Qed.

End Rendering.

(** X17: when the mean volume cannot be read from the output of the
    volume analysis, single-file processing throws the error of the volume
    parser after the probe and the volume analysis; the silence detection
    is not run and nothing is written. *)
Theorem unreadable_volume_stops_processing (host : Host)
  (videoPath : jsstring) (outputVideoPath : option jsstring) (t : trace)
  (videoDurationStr volumeDetectOutput : jsstring) (e : exn) :
  ffprobe_answer host t (duration_args videoPath) = Ok videoDurationStr ->
  ffmpeg_answer host (t ++ [Ffprobe (duration_args videoPath)])
    (volumedetect_args videoPath)
  = Ok volumeDetectOutput ->
  getMinValumeFromVolumeDetectOutput (parseFloat host) volumeDetectOutput
  = Throw e ->
  removeSilentFromVideoFile host (Some videoPath) outputVideoPath t
  = (t ++ [Ffprobe (duration_args videoPath);
           Ffmpeg (volumedetect_args videoPath)],
     Throw e).
Proof.
  intros Hd Hv Hm.
  rewrite (file_processing_from_volume host videoPath outputVideoPath t
             videoDurationStr volumeDetectOutput Hd Hv).
  now rewrite Hm.
Qed.

(** X18: when the silence parser rejects the output of the silence
    detection, single-file processing throws that parse error after the
    three analysis invocations; nothing is extracted or written. *)
Theorem unreadable_silences_stop_processing (host : Host)
  (videoPath : jsstring) (outputVideoPath : option jsstring) (t : trace)
  (videoDurationStr volumeDetectOutput silenceDetectOutput : jsstring)
  (meanVolume : Number) (e : exn) :
  ffprobe_answer host t (duration_args videoPath) = Ok videoDurationStr ->
  ffmpeg_answer host (t ++ [Ffprobe (duration_args videoPath)])
    (volumedetect_args videoPath)
  = Ok volumeDetectOutput ->
  getMinValumeFromVolumeDetectOutput (parseFloat host) volumeDetectOutput
  = Ok meanVolume ->
  ffmpeg_answer host
    (t ++ [Ffprobe (duration_args videoPath);
           Ffmpeg (volumedetect_args videoPath)])
    (silencedetect_args host videoPath (Number_sub meanVolume 0)
       (Number_add minimumSilentDuration remainingSilentDuration))
  = Ok silenceDetectOutput ->
  getSilentPeriodListFromSilenceDetectOutput (parseFloat host)
    silenceDetectOutput
  = Throw e ->
  removeSilentFromVideoFile host (Some videoPath) outputVideoPath t
  = (t ++ analysis host videoPath meanVolume, Throw e).
Proof.
  intros Hd Hv Hm Hs Hp.
  rewrite (file_processing_from_volume host videoPath outputVideoPath t
             videoDurationStr volumeDetectOutput Hd Hv).
  now rewrite Hm, Hs, Hp.
Qed.

Section FileOutcome.

Variable host : Host.
Variable videoPath : jsstring.
Variable outputVideoPath : option jsstring.
Variable t : trace.
Variables videoDurationStr volumeDetectOutput silenceDetectOutput : jsstring.
Variable meanVolume : Number.
Variable silentPeriodList : list period.

Abbreviation keep :=
  (adjustNotSilentPeriodList
     (planNotSilentPeriodList silentPeriodList
        (parseFloat host videoDurationStr))).
Abbreviation tmp := (tmp_dir host videoPath outputVideoPath).

Hypothesis duration_answer :
  ffprobe_answer host t (duration_args videoPath) = Ok videoDurationStr.
Hypothesis volume_answer :
  ffmpeg_answer host (t ++ [Ffprobe (duration_args videoPath)])
    (volumedetect_args videoPath)
  = Ok volumeDetectOutput.
Hypothesis volume_read :
  getMinValumeFromVolumeDetectOutput (parseFloat host) volumeDetectOutput
  = Ok meanVolume.
Hypothesis silence_answer :
  ffmpeg_answer host
    (t ++ [Ffprobe (duration_args videoPath);
           Ffmpeg (volumedetect_args videoPath)])
    (silencedetect_args host videoPath (Number_sub meanVolume 0)
       (Number_add minimumSilentDuration remainingSilentDuration))
  = Ok silenceDetectOutput.
Hypothesis silences_read :
  getSilentPeriodListFromSilenceDetectOutput (parseFloat host)
    silenceDetectOutput
  = Ok silentPeriodList.
Hypothesis something_to_keep :
  planNotSilentPeriodList silentPeriodList
    (parseFloat host videoDurationStr) <> [].
Hypothesis mkdirp_ok : forall t', mkdirp_answer host t' tmp = Ok tt.
Hypothesis extractions_ok : forall p t', In p keep ->
  exists out,
    ffmpeg_answer host t'
      (extraction_args host videoPath tmp
         (path_extname host (output_path host videoPath outputVideoPath)) p)
    = Ok out.
Hypothesis outputFile_ok : forall t' content,
  outputFile_answer host t' (path_join host tmp (js "filelist.txt"))
    content = Ok tt.

Lemma file_processing_to_concatenation :
  removeSilentFromVideoFile host (Some videoPath) outputVideoPath t
  = match ffmpeg_answer host
            (t ++ steps_to_listing host videoPath outputVideoPath meanVolume
                    keep)
            (concat_step host videoPath outputVideoPath) with
    | Ok _ =>
        (t ++ steps_to_listing host videoPath outputVideoPath meanVolume keep
           ++ [Ffmpeg (concat_step host videoPath outputVideoPath);
               Remove tmp],
         remove_answer host
           (t ++ steps_to_listing host videoPath outputVideoPath meanVolume
                   keep
              ++ [Ffmpeg (concat_step host videoPath outputVideoPath)])
           tmp)
    | Throw e =>
        (t ++ steps_to_listing host videoPath outputVideoPath meanVolume keep
           ++ [Ffmpeg (concat_step host videoPath outputVideoPath)],
         Throw e)
    end.
Proof.
  rewrite (file_processing_from_volume host videoPath outputVideoPath t
             videoDurationStr volumeDetectOutput duration_answer
             volume_answer).
  rewrite volume_read, silence_answer, silences_read. cbv zeta.
  assert (L : Nat.ltb 0 (length keep) = true).
  { unfold adjustNotSilentPeriodList. rewrite adjust_from_length.
    destruct (planNotSilentPeriodList silentPeriodList
                (parseFloat host videoDurationStr));
      [now contradiction something_to_keep | reflexivity]. }
  rewrite L.
  apply (rendering_steps host videoPath outputVideoPath keep mkdirp_ok
           extractions_ok outputFile_ok t meanVolume).
Qed.

End FileOutcome.

(** X19: the steps of a successful run.  When the analysis succeeds, the
    plan holds a keep interval and the host does what it is asked,
    single-file processing performs, in this order: the three analysis
    invocations, the making of the directory [<output>.tmp], one extraction
    for each padded keep interval, the writing of the listing of the
    chunks, the concatenation into the output path, and the removal of the
    directory; it then returns normally. *)
Theorem file_processing_steps (host : Host) (videoPath : jsstring)
  (outputVideoPath : option jsstring) (t : trace)
  (videoDurationStr volumeDetectOutput silenceDetectOutput : jsstring)
  (meanVolume : Number) (silentPeriodList : list period) :
  ffprobe_answer host t (duration_args videoPath) = Ok videoDurationStr ->
  ffmpeg_answer host (t ++ [Ffprobe (duration_args videoPath)])
    (volumedetect_args videoPath)
  = Ok volumeDetectOutput ->
  getMinValumeFromVolumeDetectOutput (parseFloat host) volumeDetectOutput
  = Ok meanVolume ->
  ffmpeg_answer host
    (t ++ [Ffprobe (duration_args videoPath);
           Ffmpeg (volumedetect_args videoPath)])
    (silencedetect_args host videoPath (Number_sub meanVolume 0)
       (Number_add minimumSilentDuration remainingSilentDuration))
  = Ok silenceDetectOutput ->
  getSilentPeriodListFromSilenceDetectOutput (parseFloat host)
    silenceDetectOutput
  = Ok silentPeriodList ->
  planNotSilentPeriodList silentPeriodList
    (parseFloat host videoDurationStr) <> [] ->
  (forall t',
      mkdirp_answer host t' (tmp_dir host videoPath outputVideoPath)
      = Ok tt) ->
  (forall p t',
      In p (adjustNotSilentPeriodList
              (planNotSilentPeriodList silentPeriodList
                 (parseFloat host videoDurationStr))) ->
      exists out,
        ffmpeg_answer host t'
          (extraction_args host videoPath
             (tmp_dir host videoPath outputVideoPath)
             (path_extname host
                (output_path host videoPath outputVideoPath)) p)
        = Ok out) ->
  (forall t' content,
      outputFile_answer host t'
        (path_join host (tmp_dir host videoPath outputVideoPath)
           (js "filelist.txt")) content = Ok tt) ->
  (forall t', exists out,
      ffmpeg_answer host t' (concat_step host videoPath outputVideoPath)
      = Ok out) ->
  (forall t',
      remove_answer host t' (tmp_dir host videoPath outputVideoPath)
      = Ok tt) ->
  removeSilentFromVideoFile host (Some videoPath) outputVideoPath t
  = (t ++ steps_to_listing host videoPath outputVideoPath meanVolume
            (adjustNotSilentPeriodList
               (planNotSilentPeriodList silentPeriodList
                  (parseFloat host videoDurationStr)))
       ++ [Ffmpeg (concat_step host videoPath outputVideoPath);
           Remove (tmp_dir host videoPath outputVideoPath)],
     Ok tt).
Proof.
  intros Hd Hv Hm Hs Hp Hk Hmk Hex Hof Hcc Hrm.
  rewrite (file_processing_to_concatenation host videoPath outputVideoPath
             t videoDurationStr volumeDetectOutput silenceDetectOutput
             meanVolume silentPeriodList Hd Hv Hm Hs Hp Hk Hmk Hex Hof).
  destruct (Hcc (t ++ steps_to_listing host videoPath outputVideoPath
                        meanVolume
                        (adjustNotSilentPeriodList
                           (planNotSilentPeriodList silentPeriodList
                              (parseFloat host videoDurationStr)))))
    as [out ->].
  now rewrite Hrm.
Qed.

(** X20: when the concatenation fails, single-file processing throws its
    error and stops: the directory [<output>.tmp] with the chunks and the
    listing is not removed. *)
Theorem failed_concatenation_leaves_chunks (host : Host)
  (videoPath : jsstring) (outputVideoPath : option jsstring) (t : trace)
  (videoDurationStr volumeDetectOutput silenceDetectOutput : jsstring)
  (meanVolume : Number) (silentPeriodList : list period) (e : exn) :
  ffprobe_answer host t (duration_args videoPath) = Ok videoDurationStr ->
  ffmpeg_answer host (t ++ [Ffprobe (duration_args videoPath)])
    (volumedetect_args videoPath)
  = Ok volumeDetectOutput ->
  getMinValumeFromVolumeDetectOutput (parseFloat host) volumeDetectOutput
  = Ok meanVolume ->
  ffmpeg_answer host
    (t ++ [Ffprobe (duration_args videoPath);
           Ffmpeg (volumedetect_args videoPath)])
    (silencedetect_args host videoPath (Number_sub meanVolume 0)
       (Number_add minimumSilentDuration remainingSilentDuration))
  = Ok silenceDetectOutput ->
  getSilentPeriodListFromSilenceDetectOutput (parseFloat host)
    silenceDetectOutput
  = Ok silentPeriodList ->
  planNotSilentPeriodList silentPeriodList
    (parseFloat host videoDurationStr) <> [] ->
  (forall t',
      mkdirp_answer host t' (tmp_dir host videoPath outputVideoPath)
      = Ok tt) ->
  (forall p t',
      In p (adjustNotSilentPeriodList
              (planNotSilentPeriodList silentPeriodList
                 (parseFloat host videoDurationStr))) ->
      exists out,
        ffmpeg_answer host t'
          (extraction_args host videoPath
             (tmp_dir host videoPath outputVideoPath)
             (path_extname host
                (output_path host videoPath outputVideoPath)) p)
        = Ok out) ->
  (forall t' content,
      outputFile_answer host t'
        (path_join host (tmp_dir host videoPath outputVideoPath)
           (js "filelist.txt")) content = Ok tt) ->
  ffmpeg_answer host
    (t ++ steps_to_listing host videoPath outputVideoPath meanVolume
            (adjustNotSilentPeriodList
               (planNotSilentPeriodList silentPeriodList
                  (parseFloat host videoDurationStr))))
    (concat_step host videoPath outputVideoPath)
  = Throw e ->
  removeSilentFromVideoFile host (Some videoPath) outputVideoPath t
  = (t ++ steps_to_listing host videoPath outputVideoPath meanVolume
            (adjustNotSilentPeriodList
               (planNotSilentPeriodList silentPeriodList
                  (parseFloat host videoDurationStr)))
       ++ [Ffmpeg (concat_step host videoPath outputVideoPath)],
     Throw e).
Proof.
  intros Hd Hv Hm Hs Hp Hk Hmk Hex Hof Hcc.
  rewrite (file_processing_to_concatenation host videoPath outputVideoPath
             t videoDurationStr volumeDetectOutput silenceDetectOutput
             meanVolume silentPeriodList Hd Hv Hm Hs Hp Hk Hmk Hex Hof).
  now rewrite Hcc.
Qed.

Lemma unreadable_volume_stops_processing_witness :
  getMinValumeFromVolumeDetectOutput decimal_parseFloat no_marker_text
  = Throw (Error (js "Volume Detect Output Error: " ++ no_marker_text))
  /\ removeSilentFromVideoFile mute_host (Some (js "movie.mp4")) None []
     = ([Ffprobe (duration_args (js "movie.mp4"));
         Ffmpeg (volumedetect_args (js "movie.mp4"))],
        Throw (Error (js "Volume Detect Output Error: " ++ no_marker_text))).
Proof.
  split; [reflexivity|].
  exact (unreadable_volume_stops_processing mute_host (js "movie.mp4") None
           [] (js "10") no_marker_text
           (Error (js "Volume Detect Output Error: " ++ no_marker_text))
           eq_refl eq_refl eq_refl).
Defined.

Lemma unreadable_silences_stop_processing_witness :
  getSilentPeriodListFromSilenceDetectOutput decimal_parseFloat
    end_first_text
  = Throw (Error (js "Unexpected period end: " ++ end_first_text))
  /\ removeSilentFromVideoFile broken_host (Some (js "movie.mp4")) None []
     = (analysis broken_host (js "movie.mp4") (-47 # 2),
        Throw (Error (js "Unexpected period end: " ++ end_first_text))).
Proof.
  split; [reflexivity|].
  exact (unreadable_silences_stop_processing broken_host (js "movie.mp4")
           None [] (js "10") quiet_output end_first_text (-47 # 2)
           (Error (js "Unexpected period end: " ++ end_first_text))
           eq_refl eq_refl eq_refl eq_refl eq_refl).
Defined.

Lemma file_processing_steps_witness :
  planNotSilentPeriodList [] (decimal_parseFloat (js "10")) = [(0, 10)]
  /\ removeSilentFromVideoFile long_host (Some (js "movie.mp4")) None []
     = (analysis long_host (js "movie.mp4") (-47 # 2)
          ++ [Mkdirp (js "./movie.mp4.silenceremoved.mp4.tmp");
              extraction long_host (js "movie.mp4")
                (js "./movie.mp4.silenceremoved.mp4.tmp") (js ".mp4")
                (0, 10);
              OutputFile
                (js "./movie.mp4.silenceremoved.mp4.tmp/filelist.txt")
                (js "file './movie.mp4.silenceremoved.mp4.tmp/0-0.mp4'");
              Ffmpeg (concat_step long_host (js "movie.mp4") None);
              Remove (js "./movie.mp4.silenceremoved.mp4.tmp")],
        Ok tt).
Proof.
  split; [reflexivity|].
  refine (file_processing_steps long_host (js "movie.mp4") None []
            (js "10") quiet_output quiet_output (-47 # 2) []
            eq_refl eq_refl eq_refl eq_refl eq_refl _ _ _ _ _ _).
  - vm_compute. discriminate.
  - reflexivity.
  - intros p t' _. eexists. reflexivity.
  - reflexivity.
  - intros t'. eexists. reflexivity.
  - reflexivity.
Defined.

Lemma failed_concatenation_leaves_chunks_witness :
  removeSilentFromVideoFile no_concat_host (Some (js "movie.mp4")) None []
  = (steps_to_listing no_concat_host (js "movie.mp4") None (-47 # 2)
       [(0, 10)]
       ++ [Ffmpeg (concat_step no_concat_host (js "movie.mp4") None)],
     Throw (Error (js "Invalid data found when processing input"))).
Proof.
  refine (failed_concatenation_leaves_chunks no_concat_host (js "movie.mp4")
            None [] (js "10") quiet_output quiet_output (-47 # 2) []
            (Error (js "Invalid data found when processing input"))
            eq_refl eq_refl eq_refl eq_refl eq_refl _ _ _ _ eq_refl).
  - vm_compute. discriminate.
  - reflexivity.
  - intros p t' _. eexists. reflexivity.
  - reflexivity.
Defined.

(** ** The listing of paths with one quote at most *)

Lemma escape_quotes_unquoted (filePath : jsstring) :
  quotes filePath = 0%nat -> escape_quotes filePath = filePath.
Proof.
  unfold quotes. induction filePath as [|c t IH]; intros H; cbn in *.
  - reflexivity.
  - destruct (N.eq_dec c 39) as [->|Hc]; [discriminate|].
    apply N.eqb_neq in Hc. rewrite Hc. now rewrite IH.
Qed.

Lemma replace_quote_one (filePath : jsstring) :
  (quotes filePath <= 1)%nat ->
  replace_quote filePath = escape_quotes filePath.
Proof.
  unfold quotes. induction filePath as [|c t IH]; intros H; cbn in *.
  - reflexivity.
  - destruct (N.eq_dec c 39) as [->|Hc].
    + cbn. rewrite escape_quotes_unquoted; [reflexivity|].
      unfold quotes. lia.
    + apply N.eqb_neq in Hc. rewrite Hc. now rewrite IH.
Qed.

(** X21: when no chunk path holds more than one single quote, the listing
    written by the program is the listing of the concatenation format: one
    line [file '<path>'] for each chunk, in order, each quote escaped. *)
Theorem listing_right_up_to_one_quote (paths : list jsstring) :
  Forall (fun p => (quotes p <= 1)%nat) paths ->
  concatFileContent paths = listing_of paths.
Proof.
  intros H. unfold concatFileContent, listing_of, concat_line. f_equal.
  induction H as [|p rest Hp Hrest IH]; cbn [map]; [reflexivity|].
  now rewrite IH, (replace_quote_one p Hp).
Qed.

Lemma listing_right_up_to_one_quote_witness :
  Forall (fun p => (quotes p <= 1)%nat)
    [js "it's.mp4.tmp/0-2.mp4"; js "it's.mp4.tmp/3-10.mp4"]
  /\ concatFileContent
       [js "it's.mp4.tmp/0-2.mp4"; js "it's.mp4.tmp/3-10.mp4"]
     = js "file 'it'\''s.mp4.tmp/0-2.mp4'" ++ [10%N]
         ++ js "file 'it'\''s.mp4.tmp/3-10.mp4'".
Proof.
  assert (H : Forall (fun p => (quotes p <= 1)%nat)
                [js "it's.mp4.tmp/0-2.mp4"; js "it's.mp4.tmp/3-10.mp4"]).
  { repeat constructor. }
  split; [exact H|].
  rewrite (listing_right_up_to_one_quote _ H). reflexivity.
Defined.
